(** * gyld-teams: balanced team assignment (index.ts)

    A shallow embedding of [index.ts]: the Scorer ([normalizeAndScore]), the
    seeded shuffle ([shuffle]), the greedy assignment and the trial loop of
    [main], and [calculateStandardDeviation].

    Conventions of the embedding.
    - A JavaScript [number] is an exact rational ([Q]); rounding of IEEE
      doubles is not modelled.  Statements about numbers use [==] ([Qeq]).
    - [Math.sqrt] has no rational value in general: a standard deviation is
      kept as the square root of its radicand ([surd]); [Infinity], the initial
      [lowestStdDev], is a separate constructor of [bound].
    - Player objects live in a store ([Heap]); arrays of players are lists of
      addresses, so that in-place writes and aliasing are visible.
    - [seedrandom] is an external library: it is a Section variable mapping a
      seed string to the stream of its draws.
    - [--teams] and [--seed] are integers ([Z]); the [--debug] logging, the
      fixed header and justification lines and the [toFixed] formatting of
      the summary are left out. *)

From Stdlib Require Import String Ascii DecimalString DecimalNat.
From Stdlib Require Import List Bool Arith ZArith QArith Qround Qminmax Lia.
From Stdlib Require Import Permutation Sorted Lqa.
From Stdlib Require Import Reals Qreals.
Import ListNotations.

Local Open Scope Q_scope.

(** ** Data model *)

(** [interface Player] *)
Record Player : Type := mkPlayer {
  player_id : string;
  historical_event_engagements : Q;
  historical_messages_sent : Q;
  days_active_last_30 : Q;
  engagement_score : Q
}.

(** Address of a player object. *)
Definition addr : Type := nat.

(** The store of player objects. *)
Definition Heap : Type := addr -> Player.

(** [interface Team]; [players] holds the pushed elements in push order. *)
Record Team (P : Type) : Type := mkTeam {
  id : nat;
  players : list P;
  total_engagement_score : Q
}.

Arguments mkTeam {P} _ _ _.
Arguments id {P} _.
Arguments players {P} _.
Arguments total_engagement_score {P} _.

(** ** Array.prototype.sort

    [array.sort(compareFn)] is a stable sort: [a] is placed after [b] only when
    [compareFn(a, b) > 0].  For a comparator that is consistent (as the two
    comparators of [index.ts] are) every stable sort returns the same array;
    it is modelled by stable insertion. *)

Section ArraySort.
Context {A : Type}.
Variable compareFn : A -> A -> Q.

Fixpoint sort_insert (a : A) (l : list A) : list A :=
  match l with
  | [] => [a]
  | b :: l' =>
      if Qle_bool (compareFn a b) 0 then a :: b :: l'
      else b :: sort_insert a l'
  end.

Definition Array_sort (l : list A) : list A :=
  fold_right sort_insert [] l.
End ArraySort.

(** ** Snake-draft assignment (main, lines 77-90) *)

Section Assigner.
Context {P : Type}.
(** [player.engagement_score], read through the player reference. *)
Variable score : P -> Q.

(** [Array.from({ length: numTeams }, (_, id) => ({ id: id + 1, players: [],
    total_engagement_score: 0 }))]; a length that is not positive gives the
    empty array. *)
Definition newTeams (numTeams : Z) : list (Team P) :=
  map (fun id => mkTeam (id + 1)%nat [] 0) (seq 0 (Z.to_nat numTeams)).

(** [(a, b) => a.total_engagement_score - b.total_engagement_score] *)
Definition byTotal (a b : Team P) : Q :=
  total_engagement_score a - total_engagement_score b.

(** [targetTeam.players.push(player);
     targetTeam.total_engagement_score += player.engagement_score] *)
Definition addPlayer (targetTeam : Team P) (player : P) : Team P :=
  mkTeam (id targetTeam)
         (players targetTeam ++ [player])
         (total_engagement_score targetTeam + score player).

(** The body of [shuffledPlayers.forEach]: the array [teams] is sorted in
    place, then [teams[0]] is updated when it exists. *)
Definition assignStep (teams : list (Team P)) (player : P) : list (Team P) :=
  match Array_sort byTotal teams with
  | [] => []
  | targetTeam :: rest => addPlayer targetTeam player :: rest
  end.

Definition assignPlayers (teams : list (Team P)) (shuffledPlayers : list P)
  : list (Team P) :=
  fold_left assignStep shuffledPlayers teams.

(** [t.total_engagement_score / (t.players.length || 1)] *)
Definition teamAvg (t : Team P) : Q :=
  total_engagement_score t /
  inject_Z (Z.of_nat (if (length (players t) =? 0)%nat then 1 else length (players t))).
End Assigner.

(** ** The seeded generator and shuffle (lines 22-38) *)

(** A generator is the stream of the values its successive calls return:
    [rng 0] is the next draw. *)
Definition Rng : Type := nat -> Q.

(** The generator after one call of [rng()]. *)
Definition rng_advance (rng : Rng) : Rng := fun n => rng (S n).

Definition Math_floor (x : Q) : Z := Qfloor x.

Section Shuffle.
Context {A : Type}.

(** [array[i] = x] for an index inside the array. *)
Fixpoint array_set (array : list A) (i : nat) (x : A) : list A :=
  match array, i with
  | [], _ => []
  | _ :: rest, O => x :: rest
  | y :: rest, S i' => y :: array_set rest i' x
  end.

(** [[array[currentIndex], array[randomIndex]] =
     [array[randomIndex], array[currentIndex]]]: both elements are read,
    then written back crossed.  A draw in [0,1) keeps both indices inside
    the array; the model leaves the array alone otherwise. *)
Definition swap (array : list A) (currentIndex randomIndex : nat) : list A :=
  match nth_error array randomIndex, nth_error array currentIndex with
  | Some r, Some c => array_set (array_set array currentIndex r) randomIndex c
  | _, _ => array
  end.

(** [Math.floor(rng() * currentIndex)] *)
Definition pickIndex (rng : Rng) (currentIndex : nat) : nat :=
  Z.to_nat (Math_floor (rng 0%nat * inject_Z (Z.of_nat currentIndex))).

(** The [while (currentIndex != 0)] loop; the argument is [currentIndex]
    at the loop test. *)
Fixpoint shuffle_loop (currentIndex : nat) (array : list A) (rng : Rng)
  : list A * Rng :=
  match currentIndex with
  | O => (array, rng)
  | S currentIndex' =>
      let randomIndex := pickIndex rng currentIndex in
      shuffle_loop currentIndex' (swap array currentIndex' randomIndex)
                   (rng_advance rng)
  end.

(** [shuffle(array, rng)]: the array after the in-place shuffle (which is
    also the value returned) and the generator left behind. *)
Definition shuffle (array : list A) (rng : Rng) : list A * Rng :=
  shuffle_loop (length array) array rng.

(** The shuffle as the specification words it, written without the
    definitions above.  [transpose i j] is the exchange of the positions [i]
    and [j]; [exchange array i j] holds at each position [k] the element
    that [array] holds at [transpose i j k]. *)
Definition transpose (i j k : nat) : nat :=
  if (k =? i)%nat then j else if (k =? j)%nat then i else k.

Definition exchange (array : list A) (i j : nat) : list A :=
  flat_map (fun k => match nth_error array (transpose i j k) with
                     | Some x => [x]
                     | None => []
                     end)
           (seq 0 (length array)).


End Shuffle.

(** ** The Scorer (lines 135-185) *)

(** The keys [readAndProcessPlayerData] puts in [metrics]:
    ['historical_event_engagements'], ['historical_messages_sent'],
    ['days_active_last_30']. *)
Inductive Metric : Type :=
| Key_historical_event_engagements
| Key_historical_messages_sent
| Key_days_active_last_30.

Definition Metric_eqb (a b : Metric) : bool :=
  match a, b with
  | Key_historical_event_engagements, Key_historical_event_engagements => true
  | Key_historical_messages_sent, Key_historical_messages_sent => true
  | Key_days_active_last_30, Key_days_active_last_30 => true
  | _, _ => false
  end.

(** [player[metric] as number] *)
Definition get_metric (player : Player) (metric : Metric) : Q :=
  match metric with
  | Key_historical_event_engagements => historical_event_engagements player
  | Key_historical_messages_sent => historical_messages_sent player
  | Key_days_active_last_30 => days_active_last_30 player
  end.

(** [player.engagement_score = s] *)
Definition set_engagement_score (player : Player) (s : Q) : Player :=
  mkPlayer (player_id player)
           (historical_event_engagements player)
           (historical_messages_sent player)
           (days_active_last_30 player)
           s.

(** A write to the object at address [a]. *)
Definition heap_set (h : Heap) (a : addr) (p : Player) : Heap :=
  fun a' => if (a' =? a)%nat then p else h a'.

(** [Math.min(...values)]; [None] is [Infinity], the result for no
    argument. *)
Definition Math_min (values : list Q) : option Q :=
  fold_left (fun acc v => match acc with
                          | None => Some v
                          | Some m => Some (Qmin m v)
                          end) values None.

(** [Math.max(...values)]; [None] is [-Infinity], the result for no
    argument. *)
Definition Math_max (values : list Q) : option Q :=
  fold_left (fun acc v => match acc with
                          | None => Some v
                          | Some m => Some (Qmax m v)
                          end) values None.

Record MinMax : Type := mkMinMax { min : option Q; max : option Q }.

(** The object [minMax], newest assignment first. *)
Definition MinMaxTable : Type := list (Metric * MinMax).

(** [minMax[metric]] *)
Fixpoint minMax_get (minMax : MinMaxTable) (metric : Metric) : option MinMax :=
  match minMax with
  | [] => None
  | (k, v) :: rest => if Metric_eqb k metric then Some v else minMax_get rest metric
  end.

(** [(max - min) === 0 ? 0 : (value - min) / (max - min)].  [min] and [max]
    are infinite only when [players] is empty, and then the callback of
    [players.map] that evaluates this expression never runs. *)
Definition normalizedValue (value : Q) (minMaxMetric : MinMax) : Q :=
  match min minMaxMetric, max minMaxMetric with
  | Some min, Some max =>
      if Qeq_bool (max - min) 0 then 0 else (value - min) / (max - min)
  | _, _ => 0
  end.

(** The first [metrics.forEach]: fills [minMax]. *)
Definition computeMinMax (h : Heap) (players : list addr) (metrics : list Metric)
  : MinMaxTable :=
  fold_left (fun minMax metric =>
               let values := map (fun p => get_metric (h p) metric) players in
               (metric, mkMinMax (Math_min values) (Math_max values)) :: minMax)
            metrics [].

(** The inner [metrics.forEach]: [normalizedScoreSum] for one player. *)
Definition normalizedScoreSum (minMax : MinMaxTable) (metrics : list Metric)
           (player : Player) : Q :=
  fold_left (fun sum metric =>
               let value := get_metric player metric in
               match minMax_get minMax metric with
               | Some minMaxMetric => sum + normalizedValue value minMaxMetric
               | None => sum
               end)
            metrics 0.

(** The callback of [players.map]: writes [engagement_score] into the player
    object and returns the same reference. *)
Definition scorePlayer (minMax : MinMaxTable) (metrics : list Metric)
           (h : Heap) (player : addr) : Heap :=
  heap_set h player
    (set_engagement_score (h player)
       (normalizedScoreSum minMax metrics (h player)
        / inject_Z (Z.of_nat (length metrics)))).

(** [normalizeAndScore(players, metrics)]: the store after the call and the
    returned array, which holds the references of [players] again.  Division
    by [metrics.length] follows the source for a non-empty [metrics]. *)
Definition normalizeAndScore (h : Heap) (players : list addr) (metrics : list Metric)
  : Heap * list addr :=
  let minMax := computeMinMax h players metrics in
  (fold_left (scorePlayer minMax metrics) players h, players).

(** A row returned by [parse] (columns by header name, [cast: true]). *)
Record CsvRecord : Type := mkCsvRecord {
  record_player_id : string;
  record_historical_event_engagements : Q;
  record_historical_messages_sent : Q;
  record_days_active_last_30 : Q
}.

(** The outcome of a call that may throw. *)
Inductive result (A : Type) : Type :=
| Ok (a : A)
| Throw (error : string).

Arguments Ok {A} _.
Arguments Throw {A} _.

(** The object built by the callback of [records.map]. *)
Definition playerOfRecord (record : CsvRecord) : Player :=
  mkPlayer (record_player_id record)
           (record_historical_event_engagements record)
           (record_historical_messages_sent record)
           (record_days_active_last_30 record)
           0.

Definition noPlayer : Player := mkPlayer EmptyString 0 0 0 0.

Definition metricsOfLevelA : list Metric :=
  [Key_historical_event_engagements; Key_historical_messages_sent;
   Key_days_active_last_30].

(** [readAndProcessPlayerData()].  [csv] is the outcome of
    [parse(fs.readFileSync(...), ...)], which throws on a missing or malformed
    file.  The objects created by [records.map] are allocated at the addresses
    [0 .. records.length - 1]. *)
Definition readAndProcessPlayerData (csv : result (list CsvRecord))
  : result (Heap * list addr) :=
  match csv with
  | Throw e => Throw e
  | Ok records =>
      let h := fun a => nth a (map playerOfRecord records) noPlayer in
      let players := seq 0 (length records) in
      Ok (normalizeAndScore h players metricsOfLevelA)
  end.

(** ** calculateStandardDeviation (lines 187-194) *)

(** The value [Math.sqrt(radicand)]. *)
Inductive surd : Type := Math_sqrt (radicand : Q).

Definition radicand (s : surd) : Q := match s with Math_sqrt q => q end.

(** [Math.pow(x, 2)] *)
Definition Math_pow2 (x : Q) : Q := x * x.

(** [calculateStandardDeviation(numbers)]; the [0] returned for the empty
    array is [Math_sqrt 0]. *)
Definition calculateStandardDeviation (numbers : list Q) : surd :=
  if (length numbers =? 0)%nat then Math_sqrt 0
  else
    let len := inject_Z (Z.of_nat (length numbers)) in
    let mean := fold_left (fun a b => a + b) numbers 0 / len in
    let variance :=
      fold_left (fun a b => a + Math_pow2 (b - mean)) numbers 0 / len in
    Math_sqrt variance.

(** The population variance as the specification words it: the mean of the
    squared distances to the mean, dividing by the number of values. *)
Definition Qsum (l : list Q) : Q := fold_right Qplus 0 l.

Definition population_variance (l : list Q) : Q :=
  let n := inject_Z (Z.of_nat (length l)) in
  let mu := Qsum l / n in
  Qsum (map (fun x => (x - mu) * (x - mu)) l) / n.

(** A value of [lowestStdDev]: [Infinity] or a standard deviation. *)
Inductive bound : Type :=
| Infinity
| Finite (s : surd).

(** [stdDev < lowestStdDev]; square roots of non-negative numbers compare as
    their radicands. *)
Definition stdDev_lt (stdDev : surd) (lowestStdDev : bound) : bool :=
  match lowestStdDev with
  | Infinity => true
  | Finite s => negb (Qle_bool (radicand s) (radicand stdDev))
  end.

(** ** main (lines 41-133) *)

(** The state of the trial loop. *)
Record Best : Type := mkBest {
  bestAssignment : list (Team addr);
  lowestStdDev : bound;
  bestTrialIndex : Z
}.

(** What a completed run prints: the assignment lines and, per team, the
    id, the size and the average (before [toFixed]). *)
Record Report : Type := mkReport {
  finalAssignment : list (Team addr);
  chosenTrial : Z;
  assignmentLines : list string;
  teamSummary : list (nat * nat * Q)
}.

Definition trials : nat := 10.

Definition string_of_nat (n : nat) : string :=
  NilZero.string_of_uint (Nat.to_uint n).

(** [`${seed}`] for an integer [seed]. *)
Definition string_of_seed (seed : Z) : string :=
  NilZero.string_of_int (Z.to_int seed).

(** [`${seed}-${i}`] *)
Definition trialSeed (seed : Z) (i : nat) : string :=
  (string_of_seed seed ++ "-" ++ string_of_nat i)%string.

(** [(a, b) => a.id - b.id] *)
Definition byId {P : Type} (a b : Team P) : Q :=
  inject_Z (Z.of_nat (id a) - Z.of_nat (id b)).

Section Main.
(** [seedrandom(trialSeed)]: the generator keyed by a seed string. *)
Variable seedrandom : string -> Rng.

Section Trials.
Variable h : Heap.
(** [players], the array returned by [readAndProcessPlayerData]. *)
Variable scored : list addr.
Variable numTeams : Z.
Variable seed : Z.

Definition scoreOf (player : addr) : Q := engagement_score (h player).

(** Lines 69-90 of the loop body: the teams of trial [i]. *)
Definition trialTeams (i : nat) : list (Team addr) :=
  let rng := seedrandom (trialSeed seed i) in
  let shuffledPlayers := fst (shuffle scored rng) in
  let teams := newTeams numTeams in
  assignPlayers scoreOf teams shuffledPlayers.

(** Lines 93-94. *)
Definition trialStdDev (i : nat) : surd :=
  let teamAvgs := map teamAvg (trialTeams i) in
  calculateStandardDeviation teamAvgs.

(** One iteration of [for (let i = 0; i < trials; i++)]. *)
Definition trialBody (best : Best) (i : nat) : Best :=
  let teams := trialTeams i in
  let stdDev := trialStdDev i in
  if stdDev_lt stdDev (lowestStdDev best)
  then mkBest teams (Finite stdDev) (Z.of_nat i + 1)
  else best.

Definition trialLoop : Best :=
  fold_left trialBody (seq 0 trials) (mkBest [] Infinity (-1)).

(** [`${player.player_id} -> new_team_${team.id}`] for every player of
    every team. *)
Definition linesOf (teams : list (Team addr)) : list string :=
  flat_map (fun team =>
              map (fun player =>
                     (player_id (h player) ++ " -> new_team_"
                      ++ string_of_nat (id team))%string)
                  (players team))
           teams.

Definition report : Report :=
  let best := trialLoop in
  let sorted := Array_sort byId (bestAssignment best) in
  mkReport sorted (bestTrialIndex best) (linesOf sorted)
           (map (fun team => (id team, length (players team), teamAvg team))
                sorted).
End Trials.

(** [main()] for the arguments [--teams numTeams --seed seed]. *)
Definition main (numTeams : Z) (seed : Z) (csv : result (list CsvRecord))
  : result Report :=
  match readAndProcessPlayerData csv with
  | Throw e => Throw e
  | Ok (h, players) => Ok (report h players numTeams seed)
  end.
End Main.

(** ** Predicates used in the statements *)

(** [target] is the first team of minimal total in [pre ++ target :: post]. *)
Definition first_minimum {P : Type} (pre : list (Team P)) (target : Team P)
           (post : list (Team P)) : Prop :=
  Forall (fun u => total_engagement_score target < total_engagement_score u) pre /\
  Forall (fun u => total_engagement_score target <= total_engagement_score u) post.

(** The contract of [seedrandom]: every draw lies in [0, 1). *)
Definition in_unit_interval (rng : Rng) : Prop :=
  forall k : nat, 0 <= rng k /\ rng k < 1.

(** Order on standard deviations: square roots of non-negative numbers are
    ordered as their radicands. *)
Definition surd_le (a b : surd) : Prop := radicand a <= radicand b.
Definition surd_lt (a b : surd) : Prop := radicand a < radicand b.
Definition surd_eq (a b : surd) : Prop := radicand a == radicand b.

(** The real number a [surd] stands for. *)
Definition surd_value (s : surd) : R := sqrt (Q2R (radicand s)).

(** [m] is the minimum (resp. maximum) of the values: one of them, below
    (resp. above) all of them. *)
Definition is_min (values : list Q) (m : Q) : Prop :=
  In m values /\ forall v, In v values -> m <= v.

Definition is_max (values : list Q) (m : Q) : Prop :=
  In m values /\ forall v, In v values -> v <= m.

(** The min-max normalization as the specification words it: [n] is
    [(value - min) / (max - min)] for the minimum and maximum of the metric
    across all players, and [0] when [max == min]. *)
Definition normalized_spec (values : list Q) (value n : Q) : Prop :=
  exists min max,
    is_min values min /\ is_max values max /\
    ((max == min /\ n == 0) \/
     (~ max == min /\ n == (value - min) / (max - min))).

(** The values of a metric across the players of an array. *)
Definition metric_values (h : Heap) (players : list addr) (metric : Metric)
  : list Q :=
  map (fun p => get_metric (h p) metric) players.

(** Tests on the size of a team and the number of teams passing a test. *)
Definition isEmpty {P : Type} (t : Team P) : bool :=
  (length (players t) =? 0)%nat.

Definition isSingle {P : Type} (t : Team P) : bool :=
  (length (players t) =? 1)%nat.

Definition countIf {A : Type} (f : A -> bool) (l : list A) : nat :=
  length (filter f l).

(** A team that is empty with total 0, or holds one player of positive
    score and has that score as its total. *)
Definition lone_or_empty {P : Type} (score : P -> Q) (t : Team P) : Prop :=
  (players t = [] /\ total_engagement_score t == 0) \/
  (exists p, players t = [p] /\ total_engagement_score t == score p /\
             0 < score p).

(** The partition the specification describes for more teams than players:
    [playerCount] teams hold one player each and have that player's score as
    average, the other [numTeams - playerCount] teams are empty and have
    average 0. *)
Definition one_player_each {P : Type} (score : P -> Q) (playerCount : nat)
           (numTeams : Z) (teams : list (Team P)) : Prop :=
  length teams = Z.to_nat numTeams /\
  countIf isSingle teams = playerCount /\
  countIf isEmpty teams = (Z.to_nat numTeams - playerCount)%nat /\
  Forall (fun t => (players t = [] /\ teamAvg t == 0) \/
                   (exists p, players t = [p] /\ teamAvg t == score p))
         teams.

(** The players of a partition, team after team. *)
Definition assigned {P : Type} (teams : list (Team P)) : list P :=
  flat_map players teams.

(** The average of a team as the specification words it:
    [total_engagement_score / max(1, player_count)]. *)
Definition teamAvg_spec {P : Type} (t : Team P) : Q :=
  total_engagement_score t / inject_Z (Z.of_nat (Nat.max 1 (length (players t)))).

(** The normalized value of one metric of a player, with the minimum and
    maximum that [computeMinMax] stores for the metric. *)
Definition normalizedFor (h : Heap) (players : list addr) (player : Player)
           (metric : Metric) : Q :=
  let values := metric_values h players metric in
  normalizedValue (get_metric player metric)
                  (mkMinMax (Math_min values) (Math_max values)).

(** ** Sample inputs *)

(** Three rows of a player table. *)
Definition sampleRecords : list CsvRecord :=
  [mkCsvRecord "p1" 0 1 0; mkCsvRecord "p2" 1 0 1; mkCsvRecord "p3" 2 2 2].

(** Two rows with the same metrics: every metric is constant, both scores
    are 0. *)
Definition tiedRecords : list CsvRecord :=
  [mkCsvRecord "p1" 5 7 9; mkCsvRecord "p2" 5 7 9].

(** A store with two player objects, at the addresses 0 and 1, as
    [records.map] creates them ([engagement_score: 0]). *)
Definition twoPlayers : Heap :=
  fun a => nth a [mkPlayer "p1" 0 0 0 0; mkPlayer "p2" 1 1 1 0] noPlayer.

(** A store of players who all have the score 1/2. *)
Definition halfScores : Heap := fun _ => mkPlayer "p" 0 0 0 (1 # 2).

(** A generator that always draws 1/2. *)
Definition halfRng : string -> Rng := fun _ _ => 1 # 2.

(** * Properties *)

(** ** The embedding on sample inputs *)

(** Draws 0, 1/5, 2/5, 3/5, 4/5 on five elements: the swaps are (4,0), (3,0),
    (2,1), (1,1), (0,0). *)
Example shuffle_five :
  fst (shuffle [0; 1; 2; 3; 4]%nat (fun n => Z.of_nat n # 5))
  = [3; 2; 1; 4; 0]%nat.
Proof. reflexivity. Qed.

(** The exchange of the positions 3 and 1. *)
Example exchange_3_1 :
  exchange [10; 11; 12; 13]%nat 3 1 = [10; 13; 12; 11]%nat.
Proof. reflexivity. Qed.

(** The scores of [sampleRecords] are 1/6, 1/3 and 1. *)
Example scores_of_sampleRecords :
  exists h : Heap,
    readAndProcessPlayerData (Ok sampleRecords) = Ok (h, [0; 1; 2]%nat) /\
    engagement_score (h 0%nat) == 1 # 6 /\
    engagement_score (h 1%nat) == 1 # 3 /\
    engagement_score (h 2%nat) == 1.
Proof. eexists. repeat split. Qed.

(** With every draw 1/2 the players of [sampleRecords] are shuffled to
    p1, p3, p2; p1 opens team 1, p3 goes to the empty team 2, p2 joins
    team 1, the lighter one. *)
Example main_on_sampleRecords :
  exists r : Report,
    main halfRng 2 42 (Ok sampleRecords) = Ok r /\
    map (fun t => (id t, players t)) (finalAssignment r)
    = [(1, [0; 1]); (2, [2])]%nat /\
    chosenTrial r = 1%Z /\
    assignmentLines r
    = ["p1 -> new_team_1"; "p2 -> new_team_1"; "p3 -> new_team_2"]%string.
Proof. eexists. repeat split. Qed.

(** A failure to read the table is passed on. *)
Example main_on_unreadable_file :
  main halfRng 2 42 (Throw "ENOENT") = Throw "ENOENT".
Proof. reflexivity. Qed.

Example trialSeed_42_3 : trialSeed 42 3 = "42-3"%string.
Proof. reflexivity. Qed.

(** ** Array.prototype.sort *)

Section ArraySortFacts.
Context {A : Type}.
Variable compareFn : A -> A -> Q.

Lemma sort_insert_perm (a : A) (l : list A) :
  Permutation (sort_insert compareFn a l) (a :: l).
Proof.
  induction l as [|b l IH]; simpl.
  - apply Permutation_refl.
  - destruct (Qle_bool (compareFn a b) 0).
    + apply Permutation_refl.
    + eapply perm_trans; [apply perm_skip, IH | apply perm_swap].
Qed.

Lemma Array_sort_cons (a : A) (l : list A) :
  Array_sort compareFn (a :: l)
  = sort_insert compareFn a (Array_sort compareFn l).
Proof. reflexivity. Qed.

Lemma Array_sort_perm (l : list A) : Permutation (Array_sort compareFn l) l.
Proof.
  induction l as [|a l IH].
  - constructor.
  - rewrite Array_sort_cons.
    eapply perm_trans; [apply sort_insert_perm | apply perm_skip, IH].
Qed.

Lemma Array_sort_length (l : list A) :
  length (Array_sort compareFn l) = length l.
Proof. apply Permutation_length, Array_sort_perm. Qed.

Lemma Array_sort_nil_inv (l : list A) : Array_sort compareFn l = [] -> l = [].
Proof.
  intros H. apply length_zero_iff_nil.
  rewrite <- Array_sort_length, H. reflexivity.
Qed.

(** Inserting an element that no element of the list precedes puts it in
    front. *)
Lemma sort_insert_front (a : A) (l : list A) :
  Forall (fun b => compareFn a b <= 0) l ->
  sort_insert compareFn a l = a :: l.
Proof.
  intros H. destruct l as [|b l]; simpl; [reflexivity|].
  inversion H as [|? ? Hb _]; subst.
  apply Qle_bool_iff in Hb. rewrite Hb. reflexivity.
Qed.

(** Inserting an element behind a strictly smaller head. *)
Lemma sort_insert_behind (a b : A) (l : list A) :
  0 < compareFn a b ->
  sort_insert compareFn a (b :: l) = b :: sort_insert compareFn a l.
Proof.
  intros H. simpl.
  destruct (Qle_bool (compareFn a b) 0) eqn:E; [|reflexivity].
  apply Qle_bool_iff in E. lra.
Qed.
End ArraySortFacts.

(** ** The assigner *)

Section AssignerFacts.
Context {P : Type}.
Variable score : P -> Q.

Local Abbreviation total := (@total_engagement_score P).

Lemma first_minimum_exists (teams : list (Team P)) :
  teams <> [] ->
  exists pre target post,
    teams = pre ++ target :: post /\ first_minimum pre target post.
Proof.
  induction teams as [|x l IH]; [congruence|]. intros _.
  destruct l as [|y l'].
  - exists [], x, []. split; [reflexivity|]. split; constructor.
  - destruct IH as (pre & t & post & E & Hpre & Hpost); [congruence|].
    destruct (Qlt_le_dec (total t) (total x)) as [Hlt|Hle].
    + exists (x :: pre), t, post. rewrite E. split; [reflexivity|].
      split; [constructor; assumption | assumption].
    + exists [], x, (y :: l'). split; [reflexivity|].
      split; [constructor|].
      rewrite E. apply Forall_app. split.
      * eapply Forall_impl; [|exact Hpre]. simpl. intros u Hu. lra.
      * constructor; [assumption|].
        eapply Forall_impl; [|exact Hpost]. simpl. intros u Hu. lra.
Qed.

(** The stable sort by total moves the first minimum to the front and
    sorts the others. *)
Lemma Array_sort_first_minimum (pre : list (Team P)) (target : Team P)
      (post : list (Team P)) :
  first_minimum pre target post ->
  Array_sort byTotal (pre ++ target :: post)
  = target :: Array_sort byTotal (pre ++ post).
Proof.
  intros [Hpre Hpost].
  induction pre as [|x pre IH]; simpl app; rewrite Array_sort_cons.
  - apply sort_insert_front.
    assert (Hs : Forall (fun u => total target <= total u)
                        (Array_sort byTotal post)).
    { eapply Permutation_Forall; [|exact Hpost].
      apply Permutation_sym, Array_sort_perm. }
    eapply Forall_impl; [|exact Hs]. unfold byTotal. simpl. intros u Hu. lra.
  - inversion Hpre as [|? ? Hx Hpre']; subst.
    rewrite (IH Hpre'), Array_sort_cons.
    apply sort_insert_behind. unfold byTotal. lra.
Qed.

Lemma assignStep_length (teams : list (Team P)) (player : P) :
  length (assignStep score teams player) = length teams.
Proof.
  unfold assignStep.
  destruct (Array_sort byTotal teams) as [|t rest] eqn:E.
  - apply Array_sort_nil_inv in E. subst. reflexivity.
  - rewrite <- (Array_sort_length byTotal teams), E. reflexivity.
Qed.

Lemma assignPlayers_length (shuffledPlayers : list P) (teams : list (Team P)) :
  length (assignPlayers score teams shuffledPlayers) = length teams.
Proof.
  unfold assignPlayers. revert teams.
  induction shuffledPlayers as [|p ps IH]; intros teams; simpl.
  - reflexivity.
  - rewrite IH. apply assignStep_length.
Qed.

Lemma newTeams_length (numTeams : Z) :
  length (@newTeams P numTeams) = Z.to_nat numTeams.
Proof. unfold newTeams. rewrite length_map, length_seq. reflexivity. Qed.

Lemma assignPlayers_snoc (teams : list (Team P)) (ps : list P) (p : P) :
  assignPlayers score teams (ps ++ [p])
  = assignStep score (assignPlayers score teams ps) p.
Proof. unfold assignPlayers. rewrite fold_left_app. reflexivity. Qed.

(** One step on a non-empty arrangement. *)
Lemma assignStep_first_minimum (pre : list (Team P)) (target : Team P)
      (post : list (Team P)) (player : P) :
  first_minimum pre target post ->
  assignStep score (pre ++ target :: post) player
  = addPlayer score target player :: Array_sort byTotal (pre ++ post).
Proof.
  intros H. unfold assignStep.
  rewrite (Array_sort_first_minimum _ _ _ H). reflexivity.
Qed.
End AssignerFacts.

(** C1.  Every assignment step of a run with at least one team: in the
    arrangement [before] the step (the array as the previous iteration left
    it), the player goes to the first team whose total is minimal, that is to
    a team whose total is at most every other total and strictly below the
    totals of the teams placed before it; the player is appended to that
    team's list, the team's total grows by the player's score, and the other
    teams follow unchanged, in stable sorted order. *)
Theorem assigner_step_greedy (P : Type) (score : P -> Q) (numTeams : Z)
        (earlier : list P) (player : P) :
  (1 <= numTeams)%Z ->
  let before := assignPlayers score (newTeams numTeams) earlier in
  let after := assignPlayers score (newTeams numTeams) (earlier ++ [player]) in
  exists pre target post,
    before = pre ++ target :: post /\
    Forall (fun u => total_engagement_score target < total_engagement_score u) pre /\
    Forall (fun u => total_engagement_score target <= total_engagement_score u) post /\
    after = mkTeam (id target) (players target ++ [player])
                   (total_engagement_score target + score player)
            :: Array_sort byTotal (pre ++ post).
Proof.
  intros HN before after.
  assert (Hne : before <> []).
  { intros E. apply (f_equal (@length _)) in E.
    unfold before in E. rewrite assignPlayers_length, newTeams_length in E.
    simpl in E. lia. }
  destruct (first_minimum_exists before Hne) as (pre & t & post & E & Hmin).
  exists pre, t, post. destruct Hmin as [Hpre Hpost].
  repeat split; try assumption.
  unfold after. rewrite assignPlayers_snoc. fold before. rewrite E.
  apply assignStep_first_minimum. split; assumption.
Qed.

Lemma assigner_step_greedy_witness :
  (1 <= 2)%Z /\
  exists pre target post,
    assignPlayers (fun n : nat => inject_Z (Z.of_nat n)) (newTeams 2) [3%nat]
    = pre ++ target :: post /\
    Forall (fun u => total_engagement_score target < total_engagement_score u) pre /\
    Forall (fun u => total_engagement_score target <= total_engagement_score u) post /\
    assignPlayers (fun n : nat => inject_Z (Z.of_nat n)) (newTeams 2) ([3%nat] ++ [5%nat])
    = mkTeam (id target) (players target ++ [5%nat])
             (total_engagement_score target + inject_Z (Z.of_nat 5))
      :: Array_sort byTotal (pre ++ post).
Proof.
  split; [lia|].
  apply (assigner_step_greedy nat (fun n : nat => inject_Z (Z.of_nat n)) 2
                              [3%nat] 5%nat). lia.
Defined.

(** ** The shuffle *)

Lemma rng_advance_in_unit_interval (rng : Rng) :
  in_unit_interval rng -> in_unit_interval (rng_advance rng).
Proof. intros H k. apply H. Qed.

Lemma Math_floor_bounds (u : Q) (n : nat) :
  0 <= u -> u < 1 ->
  (0 <= Math_floor (u * inject_Z (Z.of_nat (S n))) < Z.of_nat (S n))%Z.
Proof.
  intros H0 H1. unfold Math_floor.
  assert (Hn : 0 < inject_Z (Z.of_nat (S n))).
  { change 0 with (inject_Z 0). rewrite <- Zlt_Qlt. lia. }
  split.
  - change 0%Z with (Qfloor (inject_Z 0)). apply Qfloor_resp_le.
    change (inject_Z 0) with 0. nra.
  - apply Z.lt_nge. intros Hge.
    rewrite Zle_Qle in Hge.
    pose proof (Qfloor_le (u * inject_Z (Z.of_nat (S n)))) as Hf.
    nra.
Qed.

Lemma pickIndex_range (rng : Rng) (i : nat) :
  in_unit_interval rng -> (pickIndex rng (i + 1) <= i)%nat.
Proof.
  intros H. unfold pickIndex. destruct (H 0%nat) as [H0 H1].
  replace (i + 1)%nat with (S i) by lia.
  pose proof (Math_floor_bounds (rng 0%nat) i H0 H1). lia.
Qed.



Section ShuffleFacts.
Context {A : Type}.

Lemma array_set_length (l : list A) (i : nat) (x : A) :
  length (array_set l i x) = length l.
Proof.
  revert i. induction l as [|y l IH]; intros [|i]; simpl; auto.
Qed.

Lemma nth_error_array_set_same (l : list A) (i : nat) (x : A) :
  (i < length l)%nat -> nth_error (array_set l i x) i = Some x.
Proof.
  revert i. induction l as [|y l IH]; intros [|i] H; simpl in *;
    try lia; [reflexivity|]. apply IH. lia.
Qed.

Lemma nth_error_array_set_other (l : list A) (i j : nat) (x : A) :
  i <> j -> nth_error (array_set l i x) j = nth_error l j.
Proof.
  revert i j. induction l as [|y l IH]; intros [|i] [|j] H; simpl;
    try reflexivity; try congruence. apply IH. congruence.
Qed.

(** Overwriting the element [x] at index [i] by [y] exchanges one [x] for
    one [y]. *)
Lemma array_set_perm (l : list A) (i : nat) (x y : A) :
  nth_error l i = Some x ->
  Permutation (x :: array_set l i y) (y :: l).
Proof.
  revert i. induction l as [|z l IH]; intros [|i] H; simpl in *;
    try discriminate.
  - injection H as ->. apply perm_swap.
  - eapply perm_trans; [apply perm_swap|].
    eapply perm_trans; [apply perm_skip, (IH _ H)|]. apply perm_swap.
Qed.


Lemma swap_perm (l : list A) (i j : nat) : Permutation (swap l i j) l.
Proof.
  unfold swap.
  destruct (nth_error l j) as [r|] eqn:Ej; [|apply Permutation_refl].
  destruct (nth_error l i) as [c|] eqn:Ei; [|apply Permutation_refl].
  assert (Hj : nth_error (array_set l i r) j = Some r).
  { destruct (Nat.eq_dec i j) as [->|Hne].
    - apply nth_error_array_set_same. apply nth_error_Some. congruence.
    - rewrite nth_error_array_set_other by assumption. exact Ej. }
  apply (Permutation_cons_inv (a := r)).
  eapply perm_trans; [apply (array_set_perm _ _ _ c Hj)|].
  apply (array_set_perm _ _ _ r Ei).
Qed.


Lemma shuffle_loop_perm (n : nat) (array : list A) (rng : Rng) :
  Permutation (fst (shuffle_loop n array rng)) array.
Proof.
  revert array rng. induction n as [|n IH]; intros array rng; simpl.
  - apply Permutation_refl.
  - eapply perm_trans; [apply IH | apply swap_perm].
Qed.

Lemma shuffle_perm (array : list A) (rng : Rng) :
  Permutation (fst (shuffle array rng)) array.
Proof. apply shuffle_loop_perm. Qed.

Lemma swap_length (l : list A) (i j : nat) : length (swap l i j) = length l.
Proof. apply Permutation_length, swap_perm. Qed.

(** The swap of two positions inside the array exchanges their elements
    and leaves the other positions alone. *)
Lemma swap_nth_error (l : list A) (i j k : nat) :
  (i < length l)%nat -> (j < length l)%nat ->
  nth_error (swap l i j) k
  = nth_error l (if (k =? i)%nat then j else if (k =? j)%nat then i else k).
Proof.
  intros Hi Hj. unfold swap.
  destruct (nth_error l j) as [r|] eqn:Ej;
    [|apply nth_error_None in Ej; lia].
  destruct (nth_error l i) as [c|] eqn:Ei;
    [|apply nth_error_None in Ei; lia].
  destruct (Nat.eq_dec k j) as [->|Hkj].
  - rewrite nth_error_array_set_same by (rewrite array_set_length; exact Hj).
    destruct (j =? i)%nat eqn:E.
    + apply Nat.eqb_eq in E. subst. congruence.
    + rewrite Nat.eqb_refl. congruence.
  - rewrite nth_error_array_set_other by congruence.
    destruct (Nat.eq_dec k i) as [->|Hki].
    + rewrite nth_error_array_set_same by exact Hi.
      rewrite Nat.eqb_refl. congruence.
    + rewrite nth_error_array_set_other by congruence.
      apply Nat.eqb_neq in Hki, Hkj. rewrite Hki, Hkj. reflexivity.
Qed.







End ShuffleFacts.

(** A draw that picks the index [j] among [n + 1]. *)
Lemma draw_for_index (n j : nat) :
  (j <= n)%nat ->
  exists u : Q,
    0 <= u /\ u < 1 /\
    forall rng : Rng, rng 0%nat = u -> pickIndex rng (S n) = j.
Proof.
  intros Hj.
  set (N := inject_Z (Z.of_nat (S n))).
  set (J := inject_Z (Z.of_nat j)).
  assert (HN : 0 < N).
  { unfold N. change 0 with (inject_Z 0). rewrite <- Zlt_Qlt. lia. }
  assert (HJ0 : 0 <= J).
  { unfold J. change 0 with (inject_Z 0). rewrite <- Zle_Qle. lia. }
  assert (HJ1 : J + 1 <= N).
  { unfold J, N. change 1 with (inject_Z 1).
    rewrite <- inject_Z_plus, <- Zle_Qle. lia. }
  assert (Eu : (J + (1 # 2)) / N * N == J + (1 # 2)) by (field; lra).
  exists ((J + (1 # 2)) / N).
  assert (H0 : 0 <= (J + (1 # 2)) / N) by (apply Qle_shift_div_l; lra).
  assert (H1 : (J + (1 # 2)) / N < 1) by (apply Qlt_shift_div_r; lra).
  split; [exact H0|]. split; [exact H1|].
  intros rng E. unfold pickIndex, Math_floor. rewrite E. fold N.
  assert (Hlo : (Z.of_nat j <= Qfloor ((J + (1 # 2)) / N * N))%Z).
  { rewrite <- (Qfloor_Z (Z.of_nat j)). apply Qfloor_resp_le.
    fold J. rewrite Eu. lra. }
  assert (Hhi : (Qfloor ((J + (1 # 2)) / N * N) < Z.of_nat j + 1)%Z).
  { rewrite Zlt_Qlt. eapply Qle_lt_trans; [apply Qfloor_le|].
    rewrite Eu, inject_Z_plus. fold J. change (inject_Z 1) with 1. lra. }
  lia.
Qed.





(** ** Conservation of the players by the assigner *)

Section AssignerConservation.
Context {P : Type}.
Variable score : P -> Q.

Lemma assigned_newTeams (numTeams : Z) : assigned (@newTeams P numTeams) = [].
Proof.
  unfold assigned, newTeams.
  induction (seq 0 (Z.to_nat numTeams)) as [|i l IH]; simpl; auto.
Qed.

Lemma assignStep_assigned (teams : list (Team P)) (player : P) :
  teams <> [] ->
  Permutation (assigned (assignStep score teams player))
              (assigned teams ++ [player]).
Proof.
  intros Hne. unfold assignStep.
  pose proof (Array_sort_perm byTotal teams) as Hperm.
  destruct (Array_sort byTotal teams) as [|t rest] eqn:E.
  - apply Permutation_nil in Hperm. congruence.
  - apply (Permutation_flat_map players) in Hperm.
    unfold assigned. simpl in *.
    eapply perm_trans; [|apply Permutation_app_tail, Hperm].
    rewrite <- !app_assoc. apply Permutation_app_head, Permutation_app_comm.
Qed.

Lemma assignPlayers_assigned (shuffledPlayers : list P) (teams : list (Team P)) :
  teams <> [] ->
  Permutation (assigned (assignPlayers score teams shuffledPlayers))
              (assigned teams ++ shuffledPlayers).
Proof.
  induction shuffledPlayers as [|p ps IH] using rev_ind; intros Hne.
  - rewrite app_nil_r. apply Permutation_refl.
  - rewrite assignPlayers_snoc.
    eapply perm_trans; [apply assignStep_assigned|].
    + intros E. apply (f_equal (@length _)) in E.
      rewrite assignPlayers_length in E. destruct teams; simpl in E; congruence.
    + rewrite app_assoc. apply Permutation_app_tail, IH, Hne.
Qed.

Lemma newTeams_nonempty (numTeams : Z) :
  (1 <= numTeams)%Z -> @newTeams P numTeams <> [].
Proof.
  intros H E. apply (f_equal (@length _)) in E.
  rewrite newTeams_length in E. simpl in E. lia.
Qed.

(** With no team every step leaves the empty array: [teams[0]] is
    [undefined] and the guard [if (targetTeam)] skips the player. *)
Lemma assignPlayers_nil (shuffledPlayers : list P) :
  assignPlayers score [] shuffledPlayers = [].
Proof. induction shuffledPlayers as [|p ps IH]; simpl; auto. Qed.
End AssignerConservation.

(** ** The trial loop *)

Section TrialFacts.
Variable seedrandom : string -> Rng.
Variable h : Heap.
Variable scored : list addr.
Variable numTeams : Z.
Variable seed : Z.

Local Abbreviation teamsOf := (trialTeams seedrandom h scored numTeams seed).
Local Abbreviation stdDevOf := (trialStdDev seedrandom h scored numTeams seed).
Local Abbreviation body := (trialBody seedrandom h scored numTeams seed).

(** After the first [n] iterations the loop holds the first trial of
    minimal standard deviation among them. *)
Lemma trialLoop_prefix (n : nat) :
  exists k : nat,
    (k < S n)%nat /\
    fold_left body (seq 0 (S n)) (mkBest [] Infinity (-1))
    = mkBest (teamsOf k) (Finite (stdDevOf k)) (Z.of_nat k + 1) /\
    (forall j, (j < S n)%nat -> surd_le (stdDevOf k) (stdDevOf j)) /\
    (forall j, (j < k)%nat -> surd_lt (stdDevOf k) (stdDevOf j)).
Proof.
  unfold surd_le, surd_lt.
  induction n as [|n IH].
  - exists 0%nat. split; [lia|]. split; [reflexivity|].
    split; intros j Hj; [|lia].
    replace j with 0%nat by lia. apply Qle_refl.
  - destruct IH as (k & Hk & E & Hmin & Hfirst).
    rewrite seq_S, fold_left_app, E. simpl.
    unfold trialBody at 1. simpl.
    destruct (Qle_bool (radicand (stdDevOf k)) (radicand (stdDevOf (S n)))) eqn:Hc;
      simpl.
    + apply Qle_bool_iff in Hc.
      exists k. split; [lia|]. split; [reflexivity|].
      split; [|exact Hfirst].
      intros j Hj. destruct (Nat.eq_dec j (S n)) as [->|Hne];
        [exact Hc | apply Hmin; lia].
    + assert (Hlt : radicand (stdDevOf (S n)) < radicand (stdDevOf k)).
      { apply Qnot_le_lt. intros Hle. apply Qle_bool_iff in Hle. congruence. }
      exists (S n). split; [lia|]. split; [reflexivity|].
      split; intros j Hj.
      * destruct (Nat.eq_dec j (S n)) as [->|Hne]; [apply Qle_refl|].
        apply Qlt_le_weak. eapply Qlt_le_trans; [exact Hlt|]. apply Hmin. lia.
      * eapply Qlt_le_trans; [exact Hlt|]. apply Hmin. lia.
Qed.

Lemma trialLoop_selects :
  exists k : nat,
    (k < 10)%nat /\
    trialLoop seedrandom h scored numTeams seed
    = mkBest (teamsOf k) (Finite (stdDevOf k)) (Z.of_nat k + 1) /\
    (forall j, (j < 10)%nat -> surd_le (stdDevOf k) (stdDevOf j)) /\
    (forall j, (j < k)%nat -> surd_lt (stdDevOf k) (stdDevOf j)).
Proof. exact (trialLoop_prefix 9). Qed.

Lemma trialTeams_assigned (i : nat) :
  (1 <= numTeams)%Z -> Permutation (assigned (teamsOf i)) scored.
Proof.
  intros HN. unfold trialTeams.
  eapply perm_trans;
    [apply assignPlayers_assigned, newTeams_nonempty, HN|].
  rewrite assigned_newTeams. simpl. apply shuffle_perm.
Qed.

Lemma trialTeams_no_team (i : nat) : (numTeams <= 0)%Z -> teamsOf i = [].
Proof.
  intros HN. unfold trialTeams, newTeams.
  replace (Z.to_nat numTeams) with 0%nat by lia. simpl.
  apply assignPlayers_nil.
Qed.
End TrialFacts.

(** ** The standard deviation *)

Lemma fold_left_Qsum (f : Q -> Q) (l : list Q) (acc : Q) :
  fold_left (fun a b => a + f b) l acc == acc + Qsum (map f l).
Proof.
  revert acc. induction l as [|x l IH]; intros acc; simpl.
  - lra.
  - rewrite IH. lra.
Qed.

Lemma Qsum_ext (f g : Q -> Q) (l : list Q) :
  (forall x, f x == g x) -> Qsum (map f l) == Qsum (map g l).
Proof.
  intros E. induction l as [|x l IH]; simpl; [reflexivity|].
  rewrite IH, (E x). reflexivity.
Qed.

Lemma Qsum_nonneg (l : list Q) : Forall (fun x => 0 <= x) l -> 0 <= Qsum l.
Proof.
  induction 1 as [|x l Hx _ IH]; simpl; lra.
Qed.

Lemma inject_length_pos {A : Type} (l : list A) :
  l <> [] -> 0 < inject_Z (Z.of_nat (length l)).
Proof.
  intros H. destruct l as [|x l]; [congruence|].
  change 0 with (inject_Z 0). rewrite <- Zlt_Qlt. simpl length. lia.
Qed.

Lemma length_nonzero {A : Type} (l : list A) :
  l <> [] -> (length l =? 0)%nat = false.
Proof. destruct l; [congruence | reflexivity]. Qed.

(** [calculateStandardDeviation] is the square root of the population
    variance. *)
Lemma calculateStandardDeviation_population (numbers : list Q) :
  numbers <> [] ->
  surd_eq (calculateStandardDeviation numbers)
          (Math_sqrt (population_variance numbers)).
Proof.
  intros Hne. unfold surd_eq, calculateStandardDeviation, population_variance.
  rewrite (length_nonzero numbers Hne). cbv zeta. cbn [radicand].
  set (n := inject_Z (Z.of_nat (length numbers))).
  set (mean := fold_left (fun a b => a + b) numbers 0 / n).
  assert (Emean : mean == Qsum numbers / n).
  { unfold mean. rewrite (fold_left_Qsum (fun b => b) numbers 0), map_id.
    apply Qmult_comp; [lra | reflexivity]. }
  rewrite (fold_left_Qsum (fun b => Math_pow2 (b - mean)) numbers 0).
  apply Qmult_comp; [|reflexivity].
  rewrite Qplus_0_l. apply Qsum_ext. intros y. unfold Math_pow2.
  rewrite Emean. reflexivity.
Qed.

Lemma calculateStandardDeviation_nonneg (numbers : list Q) :
  0 <= radicand (calculateStandardDeviation numbers).
Proof.
  unfold calculateStandardDeviation.
  destruct numbers as [|x l]; [simpl; lra|].
  set (numbers := x :: l).
  assert (Hne : numbers <> []) by discriminate.
  clearbody numbers.
  rewrite (length_nonzero numbers Hne). cbv zeta. cbn [radicand].
  set (n := inject_Z (Z.of_nat (length numbers))).
  set (mean := fold_left (fun a b => a + b) numbers 0 / n).
  rewrite (fold_left_Qsum (fun b => Math_pow2 (b - mean)) numbers 0).
  apply Qle_shift_div_l; [apply inject_length_pos, Hne|].
  rewrite Qmult_0_l, Qplus_0_l.
  apply Qsum_nonneg, Forall_map, Forall_forall. intros y _.
  unfold Math_pow2. generalize (y - mean). intros z. nra.
Qed.

(** On non-negative radicands, which are the only ones
    [calculateStandardDeviation] produces, the order on radicands is the
    order of the square roots, and [stdDev_lt] is [<] on the values. *)
Lemma surd_lt_value (a b : surd) :
  0 <= radicand a -> 0 <= radicand b ->
  surd_lt a b <-> (surd_value a < surd_value b)%R.
Proof.
  intros Ha Hb. unfold surd_lt, surd_value.
  apply Qle_Rle in Ha, Hb. rewrite RMicromega.Q2R_0 in Ha, Hb.
  split.
  - intros H. apply sqrt_lt_1; try assumption. apply Qlt_Rlt, H.
  - intros H. apply Rlt_Qlt. apply sqrt_lt_0; assumption.
Qed.

Lemma surd_le_value (a b : surd) :
  0 <= radicand a -> 0 <= radicand b ->
  surd_le a b <-> (surd_value a <= surd_value b)%R.
Proof.
  intros Ha Hb. unfold surd_le, surd_value.
  apply Qle_Rle in Ha, Hb. rewrite RMicromega.Q2R_0 in Ha, Hb.
  split.
  - intros H. apply sqrt_le_1; try assumption. apply Qle_Rle, H.
  - intros H. apply Rle_Qle. apply sqrt_le_0; assumption.
Qed.

Lemma stdDev_lt_Finite (s s' : surd) :
  stdDev_lt s (Finite s') = true <-> surd_lt s s'.
Proof.
  unfold stdDev_lt, surd_lt. rewrite negb_true_iff. split.
  - intros H. apply Qnot_le_lt. intros Hle. apply Qle_bool_iff in Hle. congruence.
  - intros H. destruct (Qle_bool (radicand s') (radicand s)) eqn:E; [|reflexivity].
    apply Qle_bool_iff in E. lra.
Qed.

Lemma teamAvg_is_spec {P : Type} (t : Team P) : teamAvg t = teamAvg_spec t.
Proof.
  unfold teamAvg, teamAvg_spec. destruct (length (players t)); reflexivity.
Qed.

Lemma surd_eq_value (a b : surd) :
  0 <= radicand a -> 0 <= radicand b ->
  surd_eq a b <-> surd_value a = surd_value b.
Proof.
  intros Ha Hb. unfold surd_eq, surd_value. split.
  - intros H. rewrite (Qeq_eqR _ _ H). reflexivity.
  - intros H. apply eqR_Qeq.
    apply Qle_Rle in Ha, Hb. rewrite RMicromega.Q2R_0 in Ha, Hb.
    apply sqrt_inj; assumption.
Qed.

(** C2.  The loop of [main] runs the trials 0 to 9, ten of them.  The
    dispersion of a trial with at least one team is the population standard
    deviation of the team averages: the square root of the mean squared
    distance to the mean, dividing by the number of teams, where the average
    of a team divides its total by [max(1, size)].  The loop ends holding
    the teams of a trial [k] whose dispersion is at most the dispersion of
    each of the ten trials, and [k] is the earliest trial reaching that
    dispersion. *)
Theorem trial_selector_first_minimum (seedrandom : string -> Rng) (h : Heap)
        (scored : list addr) (numTeams seed : Z) :
  let teamsOf := trialTeams seedrandom h scored numTeams seed in
  let stdDevOf := trialStdDev seedrandom h scored numTeams seed in
  let best := trialLoop seedrandom h scored numTeams seed in
  best = fold_left (trialBody seedrandom h scored numTeams seed)
                   [0; 1; 2; 3; 4; 5; 6; 7; 8; 9]%nat
                   (mkBest [] Infinity (-1)) /\
  (forall i : nat,
      (1 <= numTeams)%Z ->
      length (teamsOf i) = Z.to_nat numTeams /\
      surd_value (stdDevOf i)
      = sqrt (Q2R (population_variance (map teamAvg_spec (teamsOf i))))) /\
  exists k : nat,
    (k < 10)%nat /\
    bestAssignment best = teamsOf k /\
    lowestStdDev best = Finite (stdDevOf k) /\
    bestTrialIndex best = (Z.of_nat k + 1)%Z /\
    (forall j, (j < 10)%nat ->
               (surd_value (stdDevOf k) <= surd_value (stdDevOf j))%R) /\
    (forall j, (j < 10)%nat ->
               surd_value (stdDevOf j) = surd_value (stdDevOf k) -> (k <= j)%nat).
Proof.
  intros teamsOf stdDevOf best.
  assert (Hnn : forall i, 0 <= radicand (stdDevOf i)).
  { intros i. apply calculateStandardDeviation_nonneg. }
  split; [reflexivity|]. split.
  - intros i HN.
    assert (Hlen : length (teamsOf i) = Z.to_nat numTeams).
    { unfold teamsOf, trialTeams.
      rewrite assignPlayers_length. apply newTeams_length. }
    split; [exact Hlen|].
    assert (E : surd_eq (stdDevOf i)
                  (Math_sqrt (population_variance (map teamAvg_spec (teamsOf i))))).
    { unfold stdDevOf, trialStdDev. fold teamsOf.
      rewrite (map_ext _ _ (@teamAvg_is_spec addr)).
      apply calculateStandardDeviation_population.
      intros E. apply (f_equal (@length _)) in E.
      rewrite length_map, Hlen in E. simpl in E. lia. }
    unfold surd_value. rewrite (Qeq_eqR _ _ E). reflexivity.
  - destruct (trialLoop_selects seedrandom h scored numTeams seed)
      as (k & Hk & E & Hmin & Hfirst).
    exists k. unfold best. rewrite E. simpl.
    repeat split; try assumption; try reflexivity.
    + intros j Hj. apply surd_le_value; [apply Hnn | apply Hnn |].
      apply Hmin, Hj.
    + intros j Hj Heq. destruct (le_lt_dec k j) as [Hle|Hlt]; [exact Hle|].
      apply surd_eq_value in Heq; [|apply Hnn|apply Hnn].
      specialize (Hfirst j Hlt). unfold surd_lt, surd_eq in *.
      fold stdDevOf in Hfirst. lra.
Qed.

(** ** The Scorer *)

Lemma Math_min_from (values : list Q) (acc : Q) :
  exists m,
    fold_left (fun acc v => match acc with
                            | None => Some v
                            | Some m => Some (Qmin m v)
                            end) values (Some acc) = Some m /\
    (m = acc \/ In m values) /\ m <= acc /\ forall v, In v values -> m <= v.
Proof.
  revert acc. induction values as [|x l IH]; intros acc; simpl.
  - exists acc. repeat split; auto. apply Qle_refl. intros v [].
  - destruct (IH (Qmin acc x)) as (m & E & Hin & Hle & Hall).
    exists m. split; [exact E|].
    pose proof (Q.le_min_l acc x) as Hl. pose proof (Q.le_min_r acc x) as Hr.
    split; [|split].
    + destruct Hin as [->|Hin]; [|auto].
      unfold Qmin, GenericMinMax.gmin. destruct (acc ?= x); auto.
    + lra.
    + intros v [<-|Hv]; [lra | apply Hall, Hv].
Qed.

Lemma Math_max_from (values : list Q) (acc : Q) :
  exists m,
    fold_left (fun acc v => match acc with
                            | None => Some v
                            | Some m => Some (Qmax m v)
                            end) values (Some acc) = Some m /\
    (m = acc \/ In m values) /\ acc <= m /\ forall v, In v values -> v <= m.
Proof.
  revert acc. induction values as [|x l IH]; intros acc; simpl.
  - exists acc. repeat split; auto. apply Qle_refl. intros v [].
  - destruct (IH (Qmax acc x)) as (m & E & Hin & Hle & Hall).
    exists m. split; [exact E|].
    pose proof (Q.le_max_l acc x) as Hl. pose proof (Q.le_max_r acc x) as Hr.
    split; [|split].
    + destruct Hin as [->|Hin]; [|auto].
      unfold Qmax, GenericMinMax.gmax. destruct (acc ?= x); auto.
    + lra.
    + intros v [<-|Hv]; [lra | apply Hall, Hv].
Qed.

(** On at least one value [Math.min] is finite and is the minimum. *)
Lemma Math_min_is_min (values : list Q) :
  values <> [] -> exists m, Math_min values = Some m /\ is_min values m.
Proof.
  destruct values as [|x l]; [congruence|]. intros _.
  destruct (Math_min_from l x) as (m & E & Hin & Hle & Hall).
  exists m. split; [exact E|]. split.
  - destruct Hin as [->|Hin]; [left; reflexivity | right; exact Hin].
  - intros v [<-|Hv]; [exact Hle | apply Hall, Hv].
Qed.

Lemma Math_max_is_max (values : list Q) :
  values <> [] -> exists m, Math_max values = Some m /\ is_max values m.
Proof.
  destruct values as [|x l]; [congruence|]. intros _.
  destruct (Math_max_from l x) as (m & E & Hin & Hle & Hall).
  exists m. split; [exact E|]. split.
  - destruct Hin as [->|Hin]; [left; reflexivity | right; exact Hin].
  - intros v [<-|Hv]; [exact Hle | apply Hall, Hv].
Qed.

(** The normalized value of a value of the list, for the list's minimum and
    maximum. *)
Lemma normalizedValue_spec (values : list Q) (value mn mx : Q) :
  is_min values mn -> is_max values mx -> In value values ->
  normalized_spec values value (normalizedValue value (mkMinMax (Some mn) (Some mx))) /\
  0 <= normalizedValue value (mkMinMax (Some mn) (Some mx)) <= 1.
Proof.
  intros Hmin Hmax Hin. unfold normalizedValue. simpl.
  pose proof (proj2 Hmin _ Hin) as Hlo. pose proof (proj2 Hmax _ Hin) as Hhi.
  destruct (Qeq_bool (mx - mn) 0) eqn:E.
  - apply Qeq_bool_iff in E. split; [|lra].
    exists mn, mx. repeat split; try apply Hmin; try apply Hmax.
    left. split; [lra | reflexivity].
  - apply Qeq_bool_neq in E.
    assert (Hpos : 0 < mx - mn).
    { destruct (Qlt_le_dec 0 (mx - mn)) as [H|H]; [exact H|].
      exfalso. apply E. lra. }
    split.
    + exists mn, mx. repeat split; try apply Hmin; try apply Hmax.
      right. split; [intros H; apply E; lra | reflexivity].
    + split.
      * apply Qle_shift_div_l; [exact Hpos | lra].
      * apply Qle_shift_div_r; [exact Hpos | lra].
Qed.

Section ScorerFacts.
Variable minMax : MinMaxTable.
Variable metrics : list Metric.

Local Abbreviation scoreFor :=
  (fun player =>
     normalizedScoreSum minMax metrics player
     / inject_Z (Z.of_nat (length metrics))).

Lemma get_metric_set_engagement_score (player : Player) (s : Q) (metric : Metric) :
  get_metric (set_engagement_score player s) metric = get_metric player metric.
Proof. destruct metric; reflexivity. Qed.

(** The score reads the metrics only. *)
Lemma normalizedScoreSum_metrics (player player' : Player) :
  (forall metric, get_metric player metric = get_metric player' metric) ->
  normalizedScoreSum minMax metrics player
  = normalizedScoreSum minMax metrics player'.
Proof.
  intros E. unfold normalizedScoreSum. generalize 0.
  induction metrics as [|m ms IH]; intros acc; simpl; [reflexivity|].
  rewrite (E m). apply IH.
Qed.

Lemma same_fields_get_metric (player player' : Player) :
  set_engagement_score player 0 = set_engagement_score player' 0 ->
  forall metric, get_metric player metric = get_metric player' metric.
Proof.
  intros E metric.
  rewrite <- (get_metric_set_engagement_score player 0 metric), E.
  apply get_metric_set_engagement_score.
Qed.

(** The writes of the [map] callback leave every field but
    [engagement_score] as it was, at every address. *)
Lemma scoreAll_frame (players : list addr) (h : Heap) (a : addr) :
  set_engagement_score (fold_left (scorePlayer minMax metrics) players h a) 0
  = set_engagement_score (h a) 0.
Proof.
  revert h. induction players as [|p ps IH]; intros h; simpl; [reflexivity|].
  rewrite IH. unfold scorePlayer, heap_set.
  destruct (a =? p)%nat eqn:E; [|reflexivity].
  apply Nat.eqb_eq in E. subst. reflexivity.
Qed.

Lemma scoreAll_outside (players : list addr) (h : Heap) (a : addr) :
  ~ In a players ->
  fold_left (scorePlayer minMax metrics) players h a = h a.
Proof.
  revert h. induction players as [|p ps IH]; intros h Hn; simpl; [reflexivity|].
  rewrite IH by (intros H; apply Hn; right; exact H).
  unfold scorePlayer, heap_set.
  destruct (a =? p)%nat eqn:E; [|reflexivity].
  apply Nat.eqb_eq in E. exfalso. apply Hn. left. congruence.
Qed.

Lemma scoreAll_inside (players : list addr) (h : Heap) (a : addr) :
  In a players ->
  fold_left (scorePlayer minMax metrics) players h a
  = set_engagement_score (h a) (scoreFor (h a)).
Proof.
  induction players as [|p ps IH] using rev_ind; intros Hin; [destruct Hin|].
  rewrite fold_left_app. simpl.
  set (h1 := fold_left (scorePlayer minMax metrics) ps h) in *.
  unfold scorePlayer, heap_set.
  pose proof (scoreAll_frame ps h) as Hframe. fold h1 in Hframe.
  destruct (a =? p)%nat eqn:E.
  - apply Nat.eqb_eq in E. subst p.
    rewrite (normalizedScoreSum_metrics (h1 a) (h a))
      by (apply same_fields_get_metric, Hframe).
    specialize (Hframe a).
    destruct (h1 a), (h a). unfold set_engagement_score in *. simpl in *.
    congruence.
  - apply Nat.eqb_neq in E. apply IH.
    apply in_app_or in Hin. destruct Hin as [H|[H|[]]]; [exact H | congruence].
Qed.
End ScorerFacts.

Lemma metric_normalized (h : Heap) (players : list addr) (a : addr) (metric : Metric) :
  In a players ->
  let value := get_metric (h a) metric in
  let values := metric_values h players metric in
  let n := normalizedValue value (mkMinMax (Math_min values) (Math_max values)) in
  normalized_spec values value n /\ 0 <= n <= 1.
Proof.
  intros Hin value values n.
  assert (Hv : In value values).
  { unfold value, values, metric_values.
    apply (in_map (fun p => get_metric (h p) metric)), Hin. }
  assert (Hne : values <> []) by (intros E; rewrite E in Hv; destruct Hv).
  destruct (Math_min_is_min values Hne) as (mn & Emn & Hmn).
  destruct (Math_max_is_max values Hne) as (mx & Emx & Hmx).
  unfold n. rewrite Emn, Emx. apply normalizedValue_spec; assumption.
Qed.

Lemma normalizeAndScore_score (h : Heap) (players : list addr) (a : addr) :
  In a players ->
  engagement_score (fst (normalizeAndScore h players metricsOfLevelA) a)
  = normalizedScoreSum (computeMinMax h players metricsOfLevelA)
                       metricsOfLevelA (h a)
    / inject_Z 3.
Proof.
  intros Hin. unfold normalizeAndScore. simpl fst.
  rewrite scoreAll_inside by exact Hin. reflexivity.
Qed.

Lemma normalizedScoreSum_levelA (h : Heap) (players : list addr) (player : Player) :
  normalizedScoreSum (computeMinMax h players metricsOfLevelA)
                     metricsOfLevelA player
  = 0 + normalizedFor h players player Key_historical_event_engagements
      + normalizedFor h players player Key_historical_messages_sent
      + normalizedFor h players player Key_days_active_last_30.
Proof. reflexivity. Qed.

(** C3.  On an array of players (non-empty, for there to be a player) the
    Scorer writes into each player an
    [engagement_score] that is the arithmetic mean of three numbers, the
    min-max-normalized values of the player's three metrics, each normalized
    with the minimum and the maximum of that metric across all players and
    equal to 0 when the two coincide; the score lies in [0, 1]. *)
Theorem scorer_mean_of_normalized (h : Heap) (players : list addr) :
  let h' := fst (normalizeAndScore h players metricsOfLevelA) in
  snd (normalizeAndScore h players metricsOfLevelA) = players /\
  forall a : addr,
    In a players ->
    exists n1 n2 n3 : Q,
      normalized_spec (metric_values h players Key_historical_event_engagements)
                      (historical_event_engagements (h a)) n1 /\
      normalized_spec (metric_values h players Key_historical_messages_sent)
                      (historical_messages_sent (h a)) n2 /\
      normalized_spec (metric_values h players Key_days_active_last_30)
                      (days_active_last_30 (h a)) n3 /\
      engagement_score (h' a) == (n1 + n2 + n3) / 3 /\
      0 <= engagement_score (h' a) /\ engagement_score (h' a) <= 1.
Proof.
  intros h'. split; [reflexivity|].
  intros a Hin. unfold h'.
  rewrite (normalizeAndScore_score h players a Hin), normalizedScoreSum_levelA.
  destruct (metric_normalized h players a Key_historical_event_engagements Hin)
    as (S1 & L1 & U1).
  destruct (metric_normalized h players a Key_historical_messages_sent Hin)
    as (S2 & L2 & U2).
  destruct (metric_normalized h players a Key_days_active_last_30 Hin)
    as (S3 & L3 & U3).
  fold (normalizedFor h players (h a) Key_historical_event_engagements) in S1, L1, U1.
  fold (normalizedFor h players (h a) Key_historical_messages_sent) in S2, L2, U2.
  fold (normalizedFor h players (h a) Key_days_active_last_30) in S3, L3, U3.
  exists (normalizedFor h players (h a) Key_historical_event_engagements),
         (normalizedFor h players (h a) Key_historical_messages_sent),
         (normalizedFor h players (h a) Key_days_active_last_30).
  split; [exact S1|]. split; [exact S2|]. split; [exact S3|].
  generalize dependent (normalizedFor h players (h a) Key_historical_event_engagements).
  generalize dependent (normalizedFor h players (h a) Key_historical_messages_sent).
  generalize dependent (normalizedFor h players (h a) Key_days_active_last_30).
  intros z _ Lz Uz y _ Ly Uy x _ Lx Ux.
  change (inject_Z 3) with 3.
  split; [|split].
  - apply Qmult_comp; [lra | reflexivity].
  - apply Qle_shift_div_l; lra.
  - apply Qle_shift_div_r; lra.
Qed.

(** C9, counterexample.  The Scorer writes into its input: after scoring the
    two objects of [twoPlayers], the object at address 1, an input record,
    holds the score 1 where it held 0, so the store is not left as it was. *)
Lemma scorer_mutates_input :
  ~ (forall a : addr,
        fst (normalizeAndScore twoPlayers [0; 1]%nat metricsOfLevelA) a
        = twoPlayers a).
Proof.
  intros H. specialize (H 1%nat).
  apply (f_equal engagement_score) in H. vm_compute in H. discriminate H.
Qed.

(** C9, amended.  The Scorer returns an array of the same references; in
    the store it leaves every object outside the array as it was, and in
    every object it leaves [player_id] and the three metrics as they were;
    the one field it writes is [engagement_score] of the players of the
    array. *)
Theorem scorer_writes_only_scores (h : Heap) (players : list addr)
        (metrics : list Metric) :
  let h' := fst (normalizeAndScore h players metrics) in
  snd (normalizeAndScore h players metrics) = players /\
  (forall a : addr, ~ In a players -> h' a = h a) /\
  (forall a : addr,
      In a players ->
      engagement_score (h' a)
      = normalizedScoreSum (computeMinMax h players metrics) metrics (h a)
        / inject_Z (Z.of_nat (length metrics))) /\
  (forall a : addr,
      player_id (h' a) = player_id (h a) /\
      historical_event_engagements (h' a) = historical_event_engagements (h a) /\
      historical_messages_sent (h' a) = historical_messages_sent (h a) /\
      days_active_last_30 (h' a) = days_active_last_30 (h a)).
Proof.
  intros h'. split; [reflexivity|]. split; [|split].
  - intros a Hn. apply scoreAll_outside, Hn.
  - intros a Hin. unfold h', normalizeAndScore. simpl fst.
    rewrite scoreAll_inside by exact Hin. reflexivity.
  - intros a. unfold h', normalizeAndScore. simpl fst.
    pose proof (scoreAll_frame (computeMinMax h players metrics) metrics
                               players h a) as E.
    destruct (fold_left (scorePlayer (computeMinMax h players metrics) metrics)
                        players h a), (h a).
    unfold set_engagement_score in E. simpl in *.
    inversion E. auto.
Qed.

(** ** main *)

Lemma readAndProcessPlayerData_Ok (records : list CsvRecord) :
  exists h : Heap,
    readAndProcessPlayerData (Ok records) = Ok (h, seq 0 (length records)).
Proof. eexists. reflexivity. Qed.

Lemma main_Ok (seedrandom : string -> Rng) (numTeams seed : Z)
      (records : list CsvRecord) (h : Heap) (scored : list addr) :
  readAndProcessPlayerData (Ok records) = Ok (h, scored) ->
  main seedrandom numTeams seed (Ok records)
  = Ok (report seedrandom h scored numTeams seed).
Proof. intros E. unfold main. rewrite E. reflexivity. Qed.

(** The teams created by [Array.from] are in increasing order of [id]:
    sorting them by [id] changes nothing. *)
Lemma Array_sort_byId_increasing {P : Type} (n start : nat) :
  let teams := map (fun i => @mkTeam P (i + 1)%nat [] 0) (seq start n) in
  Array_sort byId teams = teams.
Proof.
  revert start. induction n as [|n IH]; intros start; [reflexivity|].
  simpl seq. simpl map. cbv zeta in *. rewrite Array_sort_cons, IH.
  apply sort_insert_front.
  apply Forall_map, Forall_forall. intros i Hi. apply in_seq in Hi.
  unfold byId. simpl id. change 0 with (inject_Z 0). rewrite <- Zle_Qle. lia.
Qed.

Lemma Array_sort_byId_newTeams {P : Type} (numTeams : Z) :
  Array_sort byId (@newTeams P numTeams) = newTeams numTeams.
Proof. apply (Array_sort_byId_increasing (P := P)). Qed.

Section MainFacts.
Variable seedrandom : string -> Rng.
Variable h : Heap.
Variable scored : list addr.
Variable numTeams : Z.
Variable seed : Z.

Local Abbreviation teamsOf := (trialTeams seedrandom h scored numTeams seed).
Local Abbreviation stdDevOf := (trialStdDev seedrandom h scored numTeams seed).

(** When every trial builds the same teams the first trial is kept. *)
Lemma trialLoop_constant (teams : list (Team addr)) :
  (forall i, teamsOf i = teams) ->
  trialLoop seedrandom h scored numTeams seed
  = mkBest teams (Finite (calculateStandardDeviation (map teamAvg teams))) 1.
Proof.
  intros Hc.
  destruct (trialLoop_selects seedrandom h scored numTeams seed)
    as (k & Hk & E & _ & Hfirst).
  destruct k as [|k].
  - rewrite E. unfold trialStdDev. rewrite Hc. reflexivity.
  - exfalso. specialize (Hfirst 0%nat ltac:(lia)).
    unfold surd_lt, trialStdDev in Hfirst. rewrite !Hc in Hfirst.
    apply (Qlt_irrefl _ Hfirst).
Qed.

Lemma report_constant (teams : list (Team addr)) :
  (forall i, teamsOf i = teams) ->
  finalAssignment (report seedrandom h scored numTeams seed)
  = Array_sort byId teams /\
  chosenTrial (report seedrandom h scored numTeams seed) = 1%Z.
Proof.
  intros Hc. unfold report. rewrite (trialLoop_constant teams Hc).
  split; reflexivity.
Qed.

(** The final partition is the partition of one of the ten trials, sorted
    by [id]. *)
Lemma report_selects :
  exists k : nat,
    (k < 10)%nat /\
    finalAssignment (report seedrandom h scored numTeams seed)
    = Array_sort byId (teamsOf k).
Proof.
  destruct (trialLoop_selects seedrandom h scored numTeams seed)
    as (k & Hk & E & _).
  exists k. split; [exact Hk|]. unfold report. rewrite E. reflexivity.
Qed.

Lemma report_no_team :
  (numTeams <= 0)%Z ->
  report seedrandom h scored numTeams seed = mkReport [] 1 [] [].
Proof.
  intros HN. unfold report.
  rewrite (trialLoop_constant []); [reflexivity|].
  intros i. apply trialTeams_no_team, HN.
Qed.
End MainFacts.

(** C5.  For a team count of at least 1 and a generator that keeps to its
    contract, the players read from the input (one object per record, at
    the addresses [0 .. n-1]) are all there, each exactly once, in the teams
    of every trial and in the final partition: the concatenation of the
    teams' player lists is a permutation of the list of all players. *)
Theorem conservation (seedrandom : string -> Rng) (numTeams seed : Z)
        (records : list CsvRecord) :
  (1 <= numTeams)%Z ->
  (forall s : string, in_unit_interval (seedrandom s)) ->
  exists (h : Heap) (r : Report),
    let scored := seq 0 (length records) in
    readAndProcessPlayerData (Ok records) = Ok (h, scored) /\
    (forall i : nat,
        Permutation (assigned (trialTeams seedrandom h scored numTeams seed i))
                    scored) /\
    main seedrandom numTeams seed (Ok records) = Ok r /\
    Permutation (assigned (finalAssignment r)) scored.
Proof.
  intros HN _.
  destruct (readAndProcessPlayerData_Ok records) as (h & E).
  exists h, (report seedrandom h (seq 0 (length records)) numTeams seed).
  cbv zeta. split; [exact E|].
  split; [intros i; apply trialTeams_assigned, HN|].
  split; [apply main_Ok, E|].
  destruct (report_selects seedrandom h (seq 0 (length records)) numTeams seed)
    as (k & _ & Ek).
  rewrite Ek.
  eapply perm_trans; [|apply (trialTeams_assigned seedrandom h _ numTeams seed k HN)].
  apply Permutation_flat_map, Array_sort_perm.
Qed.

Lemma main_no_team (seedrandom : string -> Rng) (numTeams seed : Z)
      (records : list CsvRecord) :
  (numTeams <= 0)%Z ->
  main seedrandom numTeams seed (Ok records) = Ok (mkReport [] 1 [] []).
Proof.
  intros HN. destruct (readAndProcessPlayerData_Ok records) as (h & E).
  rewrite (main_Ok _ _ _ _ _ _ E). f_equal. apply report_no_team, HN.
Qed.

Lemma half_in_unit_interval : in_unit_interval (fun _ => 1 # 2).
Proof. intros k. split; unfold Qle, Qlt; simpl; lia. Defined.

Lemma conservation_witness :
  (1 <= 2)%Z /\
  (forall s : string, in_unit_interval (halfRng s)) /\
  exists (h : Heap) (r : Report),
    let scored := seq 0 (length sampleRecords) in
    readAndProcessPlayerData (Ok sampleRecords) = Ok (h, scored) /\
    (forall i : nat,
        Permutation (assigned (trialTeams halfRng h scored 2 42 i)) scored) /\
    main halfRng 2 42 (Ok sampleRecords) = Ok r /\
    Permutation (assigned (finalAssignment r)) scored.
Proof.
  split; [lia|]. split; [intros s; exact half_in_unit_interval|].
  apply (conservation halfRng 2 42 sampleRecords);
    [lia | intros s; exact half_in_unit_interval].
Defined.

(** C7, counterexample.  With [--teams 0] the run completes: no error is
    raised, and the report holds no team and no assignment line. *)
Lemma zero_teams_completes :
  main halfRng 0 42 (Ok sampleRecords) = Ok (mkReport [] 1 [] []) /\
  ~ (exists e : string,
        main halfRng 0 42 (Ok sampleRecords) = Throw e).
Proof.
  split; [reflexivity|]. intros [e H]. discriminate H.
Qed.

(** C7, amended.  For a team count [N <= 0] and any input table that was
    read, [main] raises no error: every trial builds no team, the first
    trial is kept, and the run completes with an empty partition and no
    assignment line. *)
Theorem nonpositive_teams_complete (seedrandom : string -> Rng)
        (numTeams seed : Z) (records : list CsvRecord) :
  (numTeams <= 0)%Z ->
  main seedrandom numTeams seed (Ok records) = Ok (mkReport [] 1 [] []) /\
  forall e : string, main seedrandom numTeams seed (Ok records) <> Throw e.
Proof.
  intros HN. rewrite (main_no_team _ _ _ _ HN).
  split; [reflexivity | discriminate].
Qed.

Lemma nonpositive_teams_complete_witness :
  (-3 <= 0)%Z /\
  main halfRng (-3) 42 (Ok sampleRecords) = Ok (mkReport [] 1 [] []) /\
  forall e : string, main halfRng (-3) 42 (Ok sampleRecords) <> Throw e.
Proof.
  split; [lia|].
  apply (nonpositive_teams_complete halfRng (-3) 42 sampleRecords). lia.
Defined.

(** C10.  With a team count of 0 the pipeline of a trial runs through: the
    team array is empty; a step on the empty array returns it, the player
    is in no team; so does the whole assignment; the standard deviation of
    no average is 0; and [main] completes for every table that was read. *)
Theorem zero_teams_pipeline_total (seedrandom : string -> Rng) (seed : Z)
        (records : list CsvRecord) (h : Heap) (shuffledPlayers : list addr)
        (player : addr) :
  let score := fun p => engagement_score (h p) in
  @newTeams addr 0 = [] /\
  assignStep score [] player = [] /\
  assignPlayers score (newTeams 0) shuffledPlayers = [] /\
  assigned (assignPlayers score (newTeams 0) shuffledPlayers) = [] /\
  calculateStandardDeviation
    (map teamAvg (assignPlayers score (newTeams 0) shuffledPlayers))
  = Math_sqrt 0 /\
  surd_value (Math_sqrt 0) = 0%R /\
  main seedrandom 0 seed (Ok records) = Ok (mkReport [] 1 [] []).
Proof.
  intros score. change (@newTeams addr 0) with (@nil (Team addr)).
  rewrite assignPlayers_nil.
  repeat split; try reflexivity.
  - unfold surd_value. simpl. rewrite RMicromega.Q2R_0. apply sqrt_0.
  - apply main_no_team. lia.
Qed.

(** C8, counterexample.  With no player parsed the run completes: no error
    is raised, and the report holds the two teams asked for, both empty. *)
Lemma empty_input_completes :
  main halfRng 2 42 (Ok [])
  = Ok (mkReport [mkTeam 1 [] 0; mkTeam 2 [] 0] 1 []
                 [(1%nat, 0%nat, 0); (2%nat, 0%nat, 0)]) /\
  ~ (exists e : string, main halfRng 2 42 (Ok []) = Throw e).
Proof.
  split; [reflexivity|]. intros [e H]. discriminate H.
Qed.

(** ** More teams than players *)

Lemma countIf_perm {A : Type} (f : A -> bool) (l l' : list A) :
  Permutation l l' -> countIf f l = countIf f l'.
Proof.
  unfold countIf. induction 1 as [|x l l' _ IH|x y l|l l' l'' _ IH1 _ IH2]; simpl.
  - reflexivity.
  - destruct (f x); simpl; congruence.
  - destruct (f x), (f y); reflexivity.
  - congruence.
Qed.

Lemma countIf_app {A : Type} (f : A -> bool) (l l' : list A) :
  countIf f (l ++ l') = (countIf f l + countIf f l')%nat.
Proof. unfold countIf. rewrite filter_app, length_app. reflexivity. Qed.

Lemma countIf_cons {A : Type} (f : A -> bool) (x : A) (l : list A) :
  countIf f (x :: l) = ((if f x then 1 else 0) + countIf f l)%nat.
Proof. unfold countIf. simpl. destruct (f x); reflexivity. Qed.

Section SpreadFacts.
Context {P : Type}.
Variable score : P -> Q.

Local Abbreviation total := (@total_engagement_score P).

Lemma lone_or_empty_isSingle (t : Team P) :
  lone_or_empty score t ->
  (isSingle t = false /\ isEmpty t = true /\ players t = [] /\ total t == 0) \/
  (isSingle t = true /\ isEmpty t = false /\ 0 < total t).
Proof.
  unfold isSingle, isEmpty. intros [[E H0]|(p & E & Hs & Hp)]; rewrite E; simpl.
  - left. auto.
  - right. repeat split. lra.
Qed.

Lemma count_empty_single (teams : list (Team P)) :
  Forall (lone_or_empty score) teams ->
  (countIf isEmpty teams + countIf isSingle teams = length teams)%nat.
Proof.
  induction 1 as [|t l Ht _ IH]; [reflexivity|].
  rewrite !countIf_cons. simpl length.
  destruct (lone_or_empty_isSingle t Ht) as [(-> & -> & _)|(-> & -> & _)]; lia.
Qed.

Lemma some_team_empty (teams : list (Team P)) :
  Forall (lone_or_empty score) teams ->
  (countIf isSingle teams < length teams)%nat ->
  exists e, In e teams /\ total e == 0.
Proof.
  induction 1 as [|t l Ht _ IH]; intros Hc; [simpl in Hc; lia|].
  rewrite countIf_cons in Hc. simpl length in Hc.
  destruct (lone_or_empty_isSingle t Ht) as [(_ & _ & _ & H0)|(Es & _ & _)].
  - exists t. split; [left; reflexivity | exact H0].
  - rewrite Es in Hc. destruct IH as (e & Hin & H0); [lia|].
    exists e. split; [right; exact Hin | exact H0].
Qed.

Lemma first_minimum_le (pre : list (Team P)) (target : Team P)
      (post : list (Team P)) (u : Team P) :
  first_minimum pre target post -> In u (pre ++ target :: post) ->
  total target <= total u.
Proof.
  intros [Hpre Hpost] Hin. apply in_app_or in Hin.
  rewrite Forall_forall in Hpre, Hpost.
  destruct Hin as [H|[<-|H]].
  - apply Qlt_le_weak, Hpre, H.
  - apply Qle_refl.
  - apply Hpost, H.
Qed.

(** While a team is empty, a player of positive score goes to an empty
    team. *)
Lemma assignStep_spreads (teams : list (Team P)) (player : P) :
  Forall (lone_or_empty score) teams ->
  (countIf isSingle teams < length teams)%nat ->
  0 < score player ->
  Forall (lone_or_empty score) (assignStep score teams player) /\
  countIf isSingle (assignStep score teams player) = S (countIf isSingle teams).
Proof.
  intros Hall Hc Hp.
  assert (Hne : teams <> []) by (intros ->; simpl in Hc; lia).
  destruct (first_minimum_exists teams Hne) as (pre & t & post & E & Hmin).
  destruct (some_team_empty teams Hall Hc) as (e & Hin & H0).
  rewrite E in Hin. pose proof (first_minimum_le _ _ _ _ Hmin Hin) as Hle.
  rewrite E in Hall. pose proof Hall as Hall'.
  apply Forall_app in Hall'. destruct Hall' as [Hpre Hcons].
  inversion Hcons as [|? ? Ht Hpost]; subst.
  destruct (lone_or_empty_isSingle t Ht) as [(Es & _ & Et & Ht0)|(_ & _ & Hpos)];
    [|lra].
  rewrite (assignStep_first_minimum score _ _ _ player Hmin).
  assert (Hrest : Permutation (Array_sort byTotal (pre ++ post)) (pre ++ post))
    by apply Array_sort_perm.
  split.
  - constructor.
    + right. exists player. unfold addPlayer. simpl. rewrite Et.
      split; [reflexivity|]. split; [lra | exact Hp].
    + eapply Permutation_Forall; [apply Permutation_sym, Hrest|].
      apply Forall_app. split; assumption.
  - rewrite countIf_cons, (countIf_perm _ _ _ Hrest).
    rewrite !countIf_app, countIf_cons, Es.
    unfold isSingle at 1, addPlayer. simpl. rewrite Et. simpl. lia.
Qed.

Lemma assignPlayers_spreads (shuffledPlayers : list P) (teams : list (Team P)) :
  Forall (lone_or_empty score) teams ->
  (countIf isSingle teams + length shuffledPlayers <= length teams)%nat ->
  (forall p, In p shuffledPlayers -> 0 < score p) ->
  Forall (lone_or_empty score) (assignPlayers score teams shuffledPlayers) /\
  countIf isSingle (assignPlayers score teams shuffledPlayers)
  = (countIf isSingle teams + length shuffledPlayers)%nat.
Proof.
  revert teams. induction shuffledPlayers as [|p ps IH]; intros teams Hall Hc Hp.
  - simpl. split; [exact Hall | lia].
  - simpl length in *. simpl assignPlayers.
    destruct (assignStep_spreads teams p Hall) as [Hall' Hc'];
      [lia | apply Hp; left; reflexivity |].
    change (assignPlayers score teams (p :: ps))
      with (assignPlayers score (assignStep score teams p) ps).
    destruct (IH (assignStep score teams p) Hall') as [H1 H2].
    + rewrite Hc', assignStep_length. lia.
    + intros q Hq. apply Hp. right. exact Hq.
    + split; [exact H1|]. rewrite H2, Hc'. lia.
Qed.

Lemma newTeams_lone_or_empty (numTeams : Z) :
  Forall (lone_or_empty score) (newTeams numTeams) /\
  countIf isSingle (@newTeams P numTeams) = 0%nat.
Proof.
  unfold newTeams. induction (seq 0 (Z.to_nat numTeams)) as [|i l [IH1 IH2]].
  - split; [constructor | reflexivity].
  - split.
    + constructor; [|exact IH1]. left. split; reflexivity.
    + simpl map. rewrite countIf_cons. exact IH2.
Qed.

Lemma lone_or_empty_one_player_each (playerCount : nat) (numTeams : Z)
      (teams : list (Team P)) :
  Forall (lone_or_empty score) teams ->
  length teams = Z.to_nat numTeams ->
  countIf isSingle teams = playerCount ->
  one_player_each score playerCount numTeams teams.
Proof.
  intros Hall Hlen Hc. unfold one_player_each.
  pose proof (count_empty_single teams Hall) as Hsum.
  split; [exact Hlen|]. split; [exact Hc|]. split; [lia|].
  eapply Forall_impl; [|exact Hall].
  intros t [[E H0]|(p & E & Hs & _)]; unfold teamAvg; rewrite E; simpl.
  - left. split; [reflexivity|]. rewrite H0. reflexivity.
  - right. exists p. split; [reflexivity|]. rewrite Hs.
    change (inject_Z 1) with 1. field.
Qed.

Lemma one_player_each_perm (playerCount : nat) (numTeams : Z)
      (teams teams' : list (Team P)) :
  Permutation teams teams' ->
  one_player_each score playerCount numTeams teams ->
  one_player_each score playerCount numTeams teams'.
Proof.
  intros Hp (H1 & H2 & H3 & H4). unfold one_player_each.
  rewrite <- (Permutation_length Hp), <- !(countIf_perm _ _ _ Hp).
  repeat split; try assumption.
  eapply Permutation_Forall; [exact Hp | exact H4].
Qed.
End SpreadFacts.

(** Teams whose totals are all 0 are left in place by the sort, so players of
    score 0 all go to the first team, whatever their order. *)
Lemma Array_sort_byTotal_zero {P : Type} (teams : list (Team P)) :
  Forall (fun u => total_engagement_score u == 0) teams ->
  Array_sort byTotal teams = teams.
Proof.
  induction 1 as [|t l Ht Hl IH]; [reflexivity|].
  rewrite Array_sort_cons, IH. apply sort_insert_front.
  eapply Forall_impl; [|exact Hl]. unfold byTotal. simpl. intros u Hu. lra.
Qed.

Lemma zero_scores_fill_first_team {P : Type} (score : P -> Q)
      (shuffledPlayers : list P) (t : Team P) (rest : list (Team P)) :
  Forall (fun u => total_engagement_score u == 0) (t :: rest) ->
  (forall p, In p shuffledPlayers -> score p == 0) ->
  exists tot : Q,
    tot == 0 /\
    assignPlayers score (t :: rest) shuffledPlayers
    = mkTeam (id t) (players t ++ shuffledPlayers) tot :: rest.
Proof.
  revert t. induction shuffledPlayers as [|p ps IH]; intros t Hz Hs.
  - exists (total_engagement_score t). inversion Hz; subst.
    split; [assumption|]. simpl. rewrite app_nil_r. destruct t; reflexivity.
  - assert (Hp : score p == 0) by (apply Hs; left; reflexivity).
    inversion Hz as [|? ? Ht Hrest]; subst.
    assert (Hz' : Forall (fun u => total_engagement_score u == 0)
                         (addPlayer score t p :: rest)).
    { constructor; [|exact Hrest]. unfold addPlayer. simpl. lra. }
    destruct (IH (addPlayer score t p) Hz') as (tot & Htot & E).
    { intros q Hq. apply Hs. right. exact Hq. }
    exists tot. split; [exact Htot|].
    unfold assignPlayers in *. simpl fold_left. unfold assignStep at 2.
    rewrite (Array_sort_byTotal_zero _ Hz), E. simpl.
    rewrite <- app_assoc. reflexivity.
Qed.

(** Players who all have the score 0 end on the first team in every trial,
    in the order of the shuffle, whatever the generator draws. *)
Lemma trialTeams_zero_scores (seedrandom : string -> Rng) (h : Heap)
      (scored : list addr) (numTeams seed : Z) (i : nat) :
  (1 <= numTeams)%Z ->
  (forall p, In p scored -> scoreOf h p == 0) ->
  exists tot : Q,
    tot == 0 /\
    trialTeams seedrandom h scored numTeams seed i
    = mkTeam 1 (fst (shuffle scored (seedrandom (trialSeed seed i)))) tot
      :: tl (newTeams numTeams).
Proof.
  intros HN Hz. unfold trialTeams.
  set (shuffled := fst (shuffle scored (seedrandom (trialSeed seed i)))).
  assert (Hperm : Permutation shuffled scored) by apply shuffle_perm.
  assert (E : @newTeams addr numTeams
              = mkTeam 1 [] 0 :: tl (newTeams numTeams)).
  { unfold newTeams. destruct (Z.to_nat numTeams) as [|n] eqn:En; [lia|].
    reflexivity. }
  assert (Hall : Forall (fun u : Team addr => total_engagement_score u == 0)
                        (newTeams numTeams)).
  { unfold newTeams. apply Forall_map, Forall_forall. intros j _. reflexivity. }
  rewrite E in Hall |- *.
  destruct (zero_scores_fill_first_team (scoreOf h) shuffled _ _ Hall)
    as (tot & Htot & Eq).
  - intros p Hp. apply Hz. eapply Permutation_in; [exact Hperm | exact Hp].
  - exists tot. split; [exact Htot|]. rewrite <- E. rewrite E at 1. exact Eq.
Qed.

(** C6, counterexample.  Two players, both of score 0, and three teams: the
    first team receives both players and no team holds exactly one player,
    where the specification has two teams of one player each. *)
Lemma tied_players_share_a_team :
  exists r : Report,
    main halfRng 3 42 (Ok tiedRecords) = Ok r /\
    map (fun t => (id t, players t)) (finalAssignment r)
    = [(1, [0; 1]); (2, []); (3, [])]%nat /\
    countIf isSingle (finalAssignment r) = 0%nat /\
    forall score : addr -> Q,
      ~ one_player_each score 2 3 (finalAssignment r).
Proof.
  eexists. split; [reflexivity|]. split; [reflexivity|].
  split; [reflexivity|].
  intros score (_ & H & _). vm_compute in H. discriminate H.
Qed.

(** C6, amended.  When the team count exceeds the number of players and
    every player has a positive score, every trial, and so the final
    partition, gives one player each to as many teams as there are players,
    each such team having the player's score as its average; the other
    teams stay empty with average 0. *)
Theorem positive_scores_one_player_each (seedrandom : string -> Rng) (h : Heap)
        (scored : list addr) (numTeams seed : Z) :
  (Z.of_nat (length scored) < numTeams)%Z ->
  (forall p, In p scored -> 0 < engagement_score (h p)) ->
  (forall s : string, in_unit_interval (seedrandom s)) ->
  (forall i : nat,
      one_player_each (scoreOf h) (length scored) numTeams
                      (trialTeams seedrandom h scored numTeams seed i)) /\
  one_player_each (scoreOf h) (length scored) numTeams
                  (finalAssignment (report seedrandom h scored numTeams seed)).
Proof.
  intros HN Hpos _.
  assert (Htrial : forall i,
             one_player_each (scoreOf h) (length scored) numTeams
                             (trialTeams seedrandom h scored numTeams seed i)).
  { intros i. unfold trialTeams.
    set (shuffled := fst (shuffle scored (seedrandom (trialSeed seed i)))).
    assert (Hperm : Permutation shuffled scored) by apply shuffle_perm.
    destruct (newTeams_lone_or_empty (P := addr) (scoreOf h) numTeams) as [H0 C0].
    destruct (assignPlayers_spreads (scoreOf h) shuffled (newTeams numTeams) H0)
      as [Hall Hc].
    - rewrite C0, newTeams_length, (Permutation_length Hperm). lia.
    - intros p Hp. apply Hpos. eapply Permutation_in; [exact Hperm | exact Hp].
    - apply lone_or_empty_one_player_each; [exact Hall | |].
      + rewrite assignPlayers_length. apply newTeams_length.
      + rewrite Hc, C0, (Permutation_length Hperm). reflexivity. }
  split; [exact Htrial|].
  destruct (report_selects seedrandom h scored numTeams seed) as (k & _ & E).
  rewrite E. eapply one_player_each_perm; [|apply (Htrial k)].
  apply Permutation_sym, Array_sort_perm.
Qed.

Lemma positive_scores_one_player_each_witness :
  (Z.of_nat (length [0; 1]%nat) < 3)%Z /\
  (forall p, In p [0; 1]%nat -> 0 < engagement_score (halfScores p)) /\
  (forall s : string, in_unit_interval (halfRng s)) /\
  (forall i : nat,
      one_player_each (scoreOf halfScores) (length [0; 1]%nat) 3
                      (trialTeams halfRng halfScores [0; 1]%nat 3 42 i)) /\
  one_player_each (scoreOf halfScores) (length [0; 1]%nat) 3
    (finalAssignment (report halfRng halfScores [0; 1]%nat 3 42)).
Proof.
  assert (H1 : (Z.of_nat (length [0; 1]%nat) < 3)%Z) by (simpl; lia).
  assert (H2 : forall p, In p [0; 1]%nat -> 0 < engagement_score (halfScores p)).
  { intros p _. reflexivity. }
  assert (H3 : forall s : string, in_unit_interval (halfRng s)).
  { intros s. exact half_in_unit_interval. }
  split; [exact H1|]. split; [exact H2|]. split; [exact H3|].
  exact (positive_scores_one_player_each
           halfRng halfScores [0; 1]%nat 3 42 H1 H2 H3).
Defined.

(** C8, amended.  With no player parsed no error is raised: the Scorer
    runs on the empty array, where the minimum and the maximum of every
    metric are infinite and unused, and returns the empty array; every
    trial leaves all the teams empty; and [main] completes with the
    partition of the first trial, the teams in creation order, all empty,
    and prints no assignment line. *)
Theorem empty_input_runs_to_completion (seedrandom : string -> Rng)
        (numTeams seed : Z) :
  exists (h : Heap) (r : Report),
    readAndProcessPlayerData (Ok []) = Ok (h, []) /\
    (forall metric,
        minMax_get (computeMinMax h [] metricsOfLevelA) metric
        = Some (mkMinMax None None)) /\
    main seedrandom numTeams seed (Ok []) = Ok r /\
    (forall e : string, main seedrandom numTeams seed (Ok []) <> Throw e) /\
    finalAssignment r = newTeams numTeams /\
    chosenTrial r = 1%Z /\
    assignmentLines r = [].
Proof.
  destruct (readAndProcessPlayerData_Ok []) as (h & E).
  change (seq 0 (length (@nil CsvRecord))) with (@nil nat) in E.
  exists h, (report seedrandom h [] numTeams seed).
  split; [exact E|].
  split; [intros []; reflexivity|].
  rewrite (main_Ok _ _ _ _ _ _ E).
  split; [reflexivity|]. split; [discriminate|].
  assert (Hc : forall i, trialTeams seedrandom h [] numTeams seed i
                         = newTeams numTeams) by reflexivity.
  destruct (report_constant seedrandom h [] numTeams seed _ Hc) as [Ef Ec].
  rewrite Array_sort_byId_newTeams in Ef.
  split; [exact Ef|]. split; [exact Ec|].
  change (assignmentLines (report seedrandom h [] numTeams seed))
    with (linesOf h (finalAssignment (report seedrandom h [] numTeams seed))).
  rewrite Ef. unfold linesOf, newTeams.
  induction (seq 0 (Z.to_nat numTeams)) as [|i l IH]; simpl; auto.
Qed.

(** * Further properties of the assigner *)

Lemma Qsum_app (l l' : list Q) : Qsum (l ++ l') == Qsum l + Qsum l'.
Proof.
  induction l as [|x l IH]; simpl; [lra|]. rewrite IH. lra.
Qed.

Section AssignerInvariants.
Context {P : Type}.
Variable score : P -> Q.

Local Abbreviation total := (@total_engagement_score P).

(** A step on a non-empty array: some team of minimal total is taken out,
    receives the player and is put in front of the others. *)
Lemma assignStep_shape (teams : list (Team P)) (player : P) :
  teams <> [] ->
  exists target rest,
    Permutation (target :: rest) teams /\
    (forall u, In u teams -> total target <= total u) /\
    assignStep score teams player = addPlayer score target player :: rest.
Proof.
  intros Hne.
  destruct (first_minimum_exists teams Hne) as (pre & t & post & E & Hmin).
  exists t, (Array_sort byTotal (pre ++ post)). subst teams.
  split; [|split].
  - eapply perm_trans; [apply perm_skip, Array_sort_perm|].
    apply Permutation_middle.
  - intros u Hu. apply (first_minimum_le _ _ _ _ Hmin Hu).
  - apply assignStep_first_minimum, Hmin.
Qed.

Lemma assignStep_nil (player : P) : assignStep score [] player = [].
Proof. reflexivity. Qed.

(** A property of single teams that fresh teams have and that receiving a
    player keeps holds of all teams after any assignment. *)
Lemma assignPlayers_Forall (I : Team P -> Prop) (shuffledPlayers : list P)
      (teams : list (Team P)) :
  (forall t p, In p shuffledPlayers -> I t -> I (addPlayer score t p)) ->
  Forall I teams ->
  Forall I (assignPlayers score teams shuffledPlayers).
Proof.
  revert teams. induction shuffledPlayers as [|p ps IH]; intros teams Hadd Hall.
  - exact Hall.
  - change (assignPlayers score teams (p :: ps))
      with (assignPlayers score (assignStep score teams p) ps).
    apply IH; [intros t q Hq; apply Hadd; right; exact Hq|].
    destruct teams as [|t0 l0]; [constructor|].
    destruct (assignStep_shape (t0 :: l0) p) as (t & rest & Hperm & _ & E);
      [discriminate|].
    rewrite E.
    assert (Hall' : Forall I (t :: rest))
      by (eapply Permutation_Forall; [apply Permutation_sym, Hperm | exact Hall]).
    inversion Hall' as [|? ? Ht Hrest]; subst.
    constructor; [apply Hadd; [left; reflexivity | exact Ht] | exact Hrest].
Qed.

Lemma newTeams_Forall (I : Team P -> Prop) (numTeams : Z) :
  (forall i : nat, I (mkTeam (i + 1)%nat [] 0)) ->
  Forall I (newTeams numTeams).
Proof.
  intros H. unfold newTeams. apply Forall_map, Forall_forall. intros i _. apply H.
Qed.

Lemma assignStep_ids (teams : list (Team P)) (player : P) :
  Permutation (map id (assignStep score teams player)) (map id teams).
Proof.
  destruct teams as [|t0 l0]; [constructor|].
  destruct (assignStep_shape (t0 :: l0) player) as (t & rest & Hperm & _ & E);
    [discriminate|].
  rewrite E. apply (Permutation_map id) in Hperm. exact Hperm.
Qed.

Lemma assignPlayers_ids (shuffledPlayers : list P) (teams : list (Team P)) :
  Permutation (map id (assignPlayers score teams shuffledPlayers)) (map id teams).
Proof.
  revert teams. induction shuffledPlayers as [|p ps IH]; intros teams.
  - apply Permutation_refl.
  - change (assignPlayers score teams (p :: ps))
      with (assignPlayers score (assignStep score teams p) ps).
    eapply perm_trans; [apply IH | apply assignStep_ids].
Qed.

Lemma newTeams_ids (numTeams : Z) :
  map id (@newTeams P numTeams) = seq 1 (Z.to_nat numTeams).
Proof.
  unfold newTeams. rewrite map_map. simpl.
  rewrite <- seq_shift. apply map_ext. intros i. lia.
Qed.

(** The totals of any two teams stay within [bound] of each other when
    every score lies in [[0, bound]]. *)
Lemma assignStep_balance (bound : Q) (teams : list (Team P)) (player : P) :
  0 <= score player -> score player <= bound ->
  (forall t u, In t teams -> In u teams -> total t <= total u + bound) ->
  forall t u,
    In t (assignStep score teams player) ->
    In u (assignStep score teams player) ->
    total t <= total u + bound.
Proof.
  intros H0 Hb Hinv t u Ht Hu.
  destruct teams as [|t0 l0]; [destruct Ht|].
  destruct (assignStep_shape (t0 :: l0) player) as (m & rest & Hperm & Hmin & E);
    [discriminate|].
  rewrite E in Ht, Hu.
  assert (Hin : forall x, In x (m :: rest) -> In x (t0 :: l0))
    by (intros x; apply Permutation_in, Hperm).
  assert (Hm : In m (t0 :: l0)) by (apply Hin; left; reflexivity).
  destruct Ht as [<-|Ht], Hu as [<-|Hu]; unfold addPlayer; simpl.
  - lra.
  - assert (In u (t0 :: l0)) by (apply Hin; right; exact Hu).
    pose proof (Hmin u H). lra.
  - assert (In t (t0 :: l0)) by (apply Hin; right; exact Ht).
    pose proof (Hinv t m H Hm). lra.
  - apply Hinv; apply Hin; right; assumption.
Qed.

Lemma assignPlayers_balance (bound : Q) (shuffledPlayers : list P)
      (teams : list (Team P)) :
  (forall p, In p shuffledPlayers -> 0 <= score p /\ score p <= bound) ->
  (forall t u, In t teams -> In u teams -> total t <= total u + bound) ->
  forall t u,
    In t (assignPlayers score teams shuffledPlayers) ->
    In u (assignPlayers score teams shuffledPlayers) ->
    total t <= total u + bound.
Proof.
  revert teams. induction shuffledPlayers as [|p ps IH]; intros teams Hs Hinv.
  - exact Hinv.
  - change (assignPlayers score teams (p :: ps))
      with (assignPlayers score (assignStep score teams p) ps).
    apply IH; [intros q Hq; apply Hs; right; exact Hq|].
    destruct (Hs p (or_introl eq_refl)) as [H0 Hb].
    apply assignStep_balance; assumption.
Qed.
End AssignerInvariants.

(** ** The order of the teams in the report *)

Lemma byId_le {P : Type} (a b : Team P) :
  Qle_bool (byId a b) 0 = true <-> (id a <= id b)%nat.
Proof.
  rewrite Qle_bool_iff. unfold byId. change 0 with (inject_Z 0).
  rewrite <- Zle_Qle. lia.
Qed.

Lemma sort_insert_byId_sorted {P : Type} (a : Team P) (l : list (Team P)) :
  StronglySorted le (map id l) ->
  StronglySorted le (map id (sort_insert byId a l)).
Proof.
  induction l as [|b l IH]; intros Hs; simpl.
  - constructor; constructor.
  - inversion Hs as [|? ? Hl Hb]; subst.
    destruct (Qle_bool (byId a b) 0) eqn:E.
    + apply byId_le in E. simpl. constructor; [exact Hs|].
      constructor; [exact E|].
      eapply Forall_impl; [|exact Hb]. simpl. intros x Hx. lia.
    + assert (Hlt : (id b < id a)%nat).
      { destruct (le_lt_dec (id a) (id b)) as [H|H]; [|exact H].
        apply byId_le in H. congruence. }
      simpl. constructor; [apply IH, Hl|].
      eapply Permutation_Forall.
      * apply Permutation_sym, Permutation_map, sort_insert_perm.
      * simpl. constructor; [lia | exact Hb].
Qed.

Lemma Array_sort_byId_sorted {P : Type} (l : list (Team P)) :
  StronglySorted le (map id (Array_sort byId l)).
Proof.
  induction l as [|a l IH]; [constructor|].
  rewrite Array_sort_cons. apply sort_insert_byId_sorted, IH.
Qed.

Lemma StronglySorted_seq (start n : nat) : StronglySorted le (seq start n).
Proof.
  revert start. induction n as [|n IH]; intros start; simpl; constructor.
  - apply IH.
  - apply Forall_forall. intros x Hx. apply in_seq in Hx. lia.
Qed.

(** Two sorted lists of numbers with the same elements are equal. *)
Lemma StronglySorted_perm_eq (l l' : list nat) :
  StronglySorted le l -> StronglySorted le l' -> Permutation l l' -> l = l'.
Proof.
  revert l'. induction l as [|a l IH]; intros l' Hs Hs' Hp.
  - apply Permutation_nil in Hp. congruence.
  - destruct l' as [|b l'].
    { apply Permutation_sym, Permutation_nil in Hp. discriminate. }
    inversion Hs as [|? ? Hl Ha]; inversion Hs' as [|? ? Hl' Hb]; subst.
    assert (a = b).
    { rewrite Forall_forall in Ha, Hb.
      assert (Hin : In a (b :: l'))
        by (eapply Permutation_in; [exact Hp | left; reflexivity]).
      assert (Hin' : In b (a :: l))
        by (eapply Permutation_in; [apply Permutation_sym, Hp | left; reflexivity]).
      destruct Hin as [->|Hin]; [reflexivity|].
      destruct Hin' as [->|Hin']; [reflexivity|].
      pose proof (Ha _ Hin'). pose proof (Hb _ Hin). lia. }
    subst b. f_equal. apply IH; try assumption.
    eapply Permutation_cons_inv, Hp.
Qed.

(** X1.  Whatever the players and their order, every team leaves the
    assignment with a total that is the sum of the scores of its players;
    this holds in every trial and in the final partition of the report. *)
Theorem team_total_is_sum_of_scores (seedrandom : string -> Rng) (h : Heap)
        (scored : list addr) (numTeams seed : Z) :
  (forall (P : Type) (score : P -> Q) (n : Z) (shuffledPlayers : list P),
      Forall (fun t => total_engagement_score t == Qsum (map score (players t)))
             (assignPlayers score (newTeams n) shuffledPlayers)) /\
  Forall (fun t => total_engagement_score t
                   == Qsum (map (scoreOf h) (players t)))
         (finalAssignment (report seedrandom h scored numTeams seed)).
Proof.
  assert (G : forall (P : Type) (score : P -> Q) (n : Z) (ps : list P),
             Forall (fun t => total_engagement_score t
                              == Qsum (map score (players t)))
                    (assignPlayers score (newTeams n) ps)).
  { intros P score n ps. apply assignPlayers_Forall.
    - intros t p _ Ht. unfold addPlayer. simpl.
      rewrite map_app, Qsum_app, Ht. simpl. lra.
    - apply newTeams_Forall. intros i. simpl. reflexivity. }
  split; [exact G|].
  destruct (report_selects seedrandom h scored numTeams seed) as (k & _ & E).
  rewrite E. eapply Permutation_Forall; [apply Permutation_sym, Array_sort_perm|].
  apply G.
Qed.

(** X2.  In every trial the team ids are the numbers 1 to N, each once, and
    the report lists the teams in that order: team 1 first, team N last. *)
Theorem report_lists_teams_by_id (seedrandom : string -> Rng) (h : Heap)
        (scored : list addr) (numTeams seed : Z) :
  (forall i : nat,
      Permutation (map id (trialTeams seedrandom h scored numTeams seed i))
                  (seq 1 (Z.to_nat numTeams))) /\
  map id (finalAssignment (report seedrandom h scored numTeams seed))
  = seq 1 (Z.to_nat numTeams).
Proof.
  assert (G : forall i : nat,
             Permutation (map id (trialTeams seedrandom h scored numTeams seed i))
                         (seq 1 (Z.to_nat numTeams))).
  { intros i. unfold trialTeams.
    rewrite <- (newTeams_ids (P := addr)). apply assignPlayers_ids. }
  split; [exact G|].
  destruct (report_selects seedrandom h scored numTeams seed) as (k & _ & E).
  rewrite E. apply StronglySorted_perm_eq.
  - apply Array_sort_byId_sorted.
  - apply StronglySorted_seq.
  - eapply perm_trans; [apply Permutation_map, Array_sort_perm | apply G].
Qed.

(** X4.  Players who all have the same positive score are dealt evenly: at
    the end of the assignment the sizes of any two teams differ by at most
    one. *)
Theorem equal_scores_even_sizes (P : Type) (score : P -> Q) (s : Q)
        (numTeams : Z) (shuffledPlayers : list P) (t u : Team P) :
  0 < s ->
  (forall p, In p shuffledPlayers -> score p == s) ->
  In t (assignPlayers score (newTeams numTeams) shuffledPlayers) ->
  In u (assignPlayers score (newTeams numTeams) shuffledPlayers) ->
  (length (players t) <= length (players u) + 1)%nat.
Proof.
  intros Hs Heq Ht Hu.
  assert (Hsize : Forall (fun x : Team P =>
                            total_engagement_score x
                            == inject_Z (Z.of_nat (length (players x))) * s)
                         (assignPlayers score (newTeams numTeams) shuffledPlayers)).
  { apply assignPlayers_Forall.
    - intros x p Hp Hx. unfold addPlayer. simpl.
      rewrite length_app, Hx, (Heq p Hp). simpl length.
      rewrite Nat2Z.inj_add, inject_Z_plus. change (inject_Z (Z.of_nat 1)) with 1.
      ring.
    - apply newTeams_Forall. intros i. simpl. ring. }
  rewrite Forall_forall in Hsize.
  pose proof (Hsize t Ht) as Et. pose proof (Hsize u Hu) as Eu.
  assert (Hclose : total_engagement_score t <= total_engagement_score u + s).
  { apply (assignPlayers_balance score s shuffledPlayers (newTeams numTeams));
      try assumption.
    - intros p Hp. rewrite (Heq p Hp). lra.
    - unfold newTeams. intros x y Hx Hy. apply in_map_iff in Hx, Hy.
      destruct Hx as (i & <- & _), Hy as (j & <- & _). simpl. lra. }
  rewrite Et, Eu in Hclose.
  destruct (le_lt_dec (length (players t)) (length (players u) + 1)) as [H|H];
    [exact H | exfalso].
  assert (Hz : (Z.of_nat (length (players u)) + 2
                <= Z.of_nat (length (players t)))%Z) by lia.
  rewrite Zle_Qle, inject_Z_plus in Hz. change (inject_Z 2) with 2 in Hz.
  nra.
Qed.

Lemma equal_scores_even_sizes_witness :
  0 < 1 # 2 /\
  (forall p : nat, In p [3; 4; 5]%nat -> (1 # 2) == 1 # 2) /\
  (length [4; 5]%nat <= length [3]%nat + 1)%nat.
Proof.
  assert (H0 : 0 < 1 # 2) by reflexivity.
  assert (Hs : forall p : nat, In p [3; 4; 5]%nat -> (1 # 2) == 1 # 2)
    by (intros p _; reflexivity).
  split; [exact H0|]. split; [exact Hs|].
  apply (equal_scores_even_sizes nat (fun _ => 1 # 2) (1 # 2) 2 [3; 4; 5]%nat
           (mkTeam 2 [4; 5]%nat (0 + (1 # 2) + (1 # 2)))
           (mkTeam 1 [3]%nat (0 + (1 # 2))) H0 Hs).
  - left. reflexivity.
  - right. left. reflexivity.
Defined.

Section AppendOnly.
Context {P : Type}.
Variable score : P -> Q.

Lemma assignStep_extends (teams : list (Team P)) (player : P) (t : Team P) :
  In t teams ->
  exists t',
    In t' (assignStep score teams player) /\
    id t' = id t /\ exists pushed, players t' = players t ++ pushed.
Proof.
  intros Hin.
  destruct (assignStep_shape score teams player) as (m & rest & Hperm & _ & E).
  { intros ->. destruct Hin. }
  rewrite E. apply (Permutation_in _ (Permutation_sym Hperm)) in Hin.
  destruct Hin as [->|Hin].
  - exists (addPlayer score t player). split; [left; reflexivity|].
    split; [reflexivity|]. exists [player]. reflexivity.
  - exists t. split; [right; exact Hin|].
    split; [reflexivity|]. exists []. rewrite app_nil_r. reflexivity.
Qed.

Lemma assignPlayers_extends (shuffledPlayers : list P) (teams : list (Team P))
      (t : Team P) :
  In t teams ->
  exists t',
    In t' (assignPlayers score teams shuffledPlayers) /\
    id t' = id t /\ exists pushed, players t' = players t ++ pushed.
Proof.
  revert teams t. induction shuffledPlayers as [|p ps IH]; intros teams t Hin.
  - exists t. split; [exact Hin|]. split; [reflexivity|].
    exists []. rewrite app_nil_r. reflexivity.
  - change (assignPlayers score teams (p :: ps))
      with (assignPlayers score (assignStep score teams p) ps).
    destruct (assignStep_extends teams p t Hin) as (t1 & H1 & E1 & s1 & P1).
    destruct (IH _ t1 H1) as (t2 & H2 & E2 & s2 & P2).
    exists t2. split; [exact H2|]. split; [congruence|].
    exists (s1 ++ s2). rewrite P2, P1, app_assoc. reflexivity.
Qed.

(** The teams after [earlier] are found again after [earlier ++ later],
    each with its id and with its players followed by the later ones it
    received. *)
Lemma assignPlayers_app_extends (numTeams : Z) (earlier later : list P)
      (t : Team P) :
  In t (assignPlayers score (newTeams numTeams) earlier) ->
  exists t',
    In t' (assignPlayers score (newTeams numTeams) (earlier ++ later)) /\
    id t' = id t /\ exists pushed, players t' = players t ++ pushed.
Proof.
  intros Hin. unfold assignPlayers. rewrite fold_left_app.
  apply (assignPlayers_extends later _ t Hin).
Qed.

Lemma first_step_newTeams (numTeams : Z) (player : P) :
  (1 <= numTeams)%Z ->
  In (mkTeam 1 [player] (0 + score player))
     (assignStep score (newTeams numTeams) player).
Proof.
  intros HN. unfold assignStep.
  rewrite Array_sort_byTotal_zero.
  - unfold newTeams. destruct (Z.to_nat numTeams) as [|n] eqn:E; [lia|].
    left. reflexivity.
  - unfold newTeams. apply Forall_map, Forall_forall. intros i _. reflexivity.
Qed.
End AppendOnly.

(** X5.  The assignment only ever appends: a team present after some
    players were assigned is still there, with the same id, after more
    players were assigned, and its earlier players come first, in the same
    order. *)
Theorem assignment_is_append_only (P : Type) (score : P -> Q) (numTeams : Z)
        (earlier later : list P) (t : Team P) :
  In t (assignPlayers score (newTeams numTeams) earlier) ->
  exists t',
    In t' (assignPlayers score (newTeams numTeams) (earlier ++ later)) /\
    id t' = id t /\
    exists pushed, players t' = players t ++ pushed.
Proof. apply assignPlayers_app_extends. Qed.

Lemma assignment_is_append_only_witness :
  In (mkTeam 1 [3]%nat (0 + (1 # 2)))
     (assignPlayers (fun _ : nat => 1 # 2) (newTeams 2) [3]%nat) /\
  exists t',
    In t' (assignPlayers (fun _ : nat => 1 # 2) (newTeams 2) ([3] ++ [4; 5])%nat) /\
    id t' = 1%nat /\
    exists pushed, players t' = [3]%nat ++ pushed.
Proof.
  assert (H : In (mkTeam 1 [3]%nat (0 + (1 # 2)))
                 (assignPlayers (fun _ : nat => 1 # 2) (newTeams 2) [3]%nat))
    by (left; reflexivity).
  split; [exact H|].
  exact (assignment_is_append_only nat (fun _ => 1 # 2) 2 [3]%nat [4; 5]%nat _ H).
Defined.

(** X6.  With at least one team, the first player of the shuffled order goes
    to team 1 and stays its first player. *)
Theorem first_player_opens_team_one (P : Type) (score : P -> Q) (numTeams : Z)
        (first : P) (others : list P) :
  (1 <= numTeams)%Z ->
  exists t,
    In t (assignPlayers score (newTeams numTeams) (first :: others)) /\
    id t = 1%nat /\
    hd_error (players t) = Some first.
Proof.
  intros HN.
  destruct (assignPlayers_extends score others _ _
              (first_step_newTeams score numTeams first HN))
    as (t & Hin & Eid & pushed & Epl).
  exists t. split; [exact Hin|]. split; [exact Eid|].
  rewrite Epl. reflexivity.
Qed.

Lemma first_player_opens_team_one_witness :
  (1 <= 2)%Z /\
  exists t,
    In t (assignPlayers (fun _ : nat => 1 # 2) (newTeams 2) [3; 4; 5]%nat) /\
    id t = 1%nat /\
    hd_error (players t) = Some 3%nat.
Proof.
  split; [lia|].
  apply (first_player_opens_team_one nat (fun _ => 1 # 2) 2 3%nat [4; 5]%nat).
  lia.
Defined.

(** * Further properties of the shuffle *)

Section ShufflePositions.
Context {A : Type}.

Lemma shuffle_loop_length (n : nat) (l : list A) (rng : Rng) :
  length (fst (shuffle_loop n l rng)) = length l.
Proof. apply Permutation_length, shuffle_loop_perm. Qed.

(** The loop entered with [currentIndex = n] leaves the positions from [n]
    on as they are. *)
Lemma shuffle_loop_keeps_tail (n : nat) (l : list A) (rng : Rng) (k : nat) :
  in_unit_interval rng -> (n <= length l)%nat -> (n <= k)%nat ->
  nth_error (fst (shuffle_loop n l rng)) k = nth_error l k.
Proof.
  revert l rng. induction n as [|n IH]; intros l rng Hr Hn Hk; [reflexivity|].
  simpl.
  assert (Hj : (pickIndex rng (S n) <= n)%nat).
  { pose proof (pickIndex_range rng n Hr) as H.
    replace (n + 1)%nat with (S n) in H by lia. exact H. }
  rewrite IH.
  - rewrite swap_nth_error by lia.
    destruct (k =? n)%nat eqn:E1; [apply Nat.eqb_eq in E1; lia|].
    destruct (k =? pickIndex rng (S n))%nat eqn:E2;
      [apply Nat.eqb_eq in E2; lia | reflexivity].
  - apply rng_advance_in_unit_interval, Hr.
  - rewrite swap_length. lia.
  - lia.
Qed.

Lemma shuffle_loop_rng (n : nat) (l : list A) (rng : Rng) (k : nat) :
  snd (shuffle_loop n l rng) k = rng (k + n)%nat.
Proof.
  revert l rng. induction n as [|n IH]; intros l rng; simpl.
  - rewrite Nat.add_0_r. reflexivity.
  - rewrite IH. unfold rng_advance. f_equal. lia.
Qed.
End ShufflePositions.

(** X7.  A shuffle calls the generator once per element of the array, the
    first element included: the generator it leaves behind continues with
    the draw number [length]. *)
Theorem shuffle_draws_once_per_element (A : Type) (array : list A) (rng : Rng)
        (k : nat) :
  snd (shuffle array rng) k = rng (k + length array)%nat.
Proof. apply shuffle_loop_rng. Qed.

(** X8.  For a generator that keeps to its contract and a non-empty array,
    the last element of the shuffled array is the element that stood at
    the index picked by the first draw, [floor(u * length)]; the later
    iterations do not move it. *)
Theorem shuffle_settles_last_position_first (A : Type) (array : list A)
        (rng : Rng) :
  in_unit_interval rng ->
  array <> [] ->
  nth_error (fst (shuffle array rng)) (length array - 1)
  = nth_error array (pickIndex rng (length array)) /\
  (pickIndex rng (length array) < length array)%nat.
Proof.
  intros Hr Hne. unfold shuffle.
  destruct (length array) as [|n] eqn:E.
  { destruct array; [congruence | discriminate]. }
  assert (Hj : (pickIndex rng (S n) <= n)%nat).
  { pose proof (pickIndex_range rng n Hr) as H.
    replace (n + 1)%nat with (S n) in H by lia. exact H. }
  split; [|lia].
  replace (S n - 1)%nat with n by lia. simpl.
  rewrite shuffle_loop_keeps_tail.
  - rewrite swap_nth_error by lia. rewrite Nat.eqb_refl. reflexivity.
  - apply rng_advance_in_unit_interval, Hr.
  - rewrite swap_length. lia.
  - lia.
Qed.

Lemma shuffle_settles_last_position_first_witness :
  in_unit_interval (fun _ => 1 # 2) /\
  [7; 8; 9]%nat <> [] /\
  nth_error (fst (shuffle [7; 8; 9]%nat (fun _ => 1 # 2))) (length [7; 8; 9]%nat - 1)
  = nth_error [7; 8; 9]%nat (pickIndex (fun _ => 1 # 2) (length [7; 8; 9]%nat)) /\
  (pickIndex (fun _ => 1 # 2) (length [7; 8; 9]%nat) < length [7; 8; 9]%nat)%nat.
Proof.
  assert (H : in_unit_interval (fun _ => 1 # 2)).
  { intros k. split; unfold Qle, Qlt; simpl; lia. }
  assert (Hne : [7; 8; 9]%nat <> []) by discriminate.
  split; [exact H|]. split; [exact Hne|].
  exact (shuffle_settles_last_position_first nat [7; 8; 9]%nat (fun _ => 1 # 2)
           H Hne).
Defined.

(** * Further properties of the Scorer *)

Lemma is_min_unique (values : list Q) (m m' : Q) :
  is_min values m -> is_min values m' -> m == m'.
Proof.
  intros [Hin Hle] [Hin' Hle']. apply Qle_antisym; auto.
Qed.

Lemma is_max_unique (values : list Q) (m m' : Q) :
  is_max values m -> is_max values m' -> m == m'.
Proof.
  intros [Hin Hle] [Hin' Hle']. apply Qle_antisym; auto.
Qed.

(** The normalized value is determined by the values, up to [==]. *)
Lemma normalized_spec_unique (values : list Q) (value n n' : Q) :
  normalized_spec values value n -> normalized_spec values value n' -> n == n'.
Proof.
  intros (mn & mx & Hmn & Hmx & Hn) (mn' & mx' & Hmn' & Hmx' & Hn').
  pose proof (is_min_unique _ _ _ Hmn Hmn') as Emn.
  pose proof (is_max_unique _ _ _ Hmx Hmx') as Emx.
  destruct Hn as [[E En]|[E En]], Hn' as [[E' En']|[E' En']].
  - rewrite En, En'. reflexivity.
  - exfalso. apply E'. rewrite <- Emn, <- Emx. exact E.
  - exfalso. apply E. rewrite Emn, Emx. exact E'.
  - rewrite En, En', Emn, Emx. reflexivity.
Qed.

Lemma normalized_spec_perm (values values' : list Q) (value n : Q) :
  Permutation values values' ->
  normalized_spec values value n -> normalized_spec values' value n.
Proof.
  intros Hp (mn & mx & [Hmn Hmn'] & [Hmx Hmx'] & Hn).
  assert (Hback : forall v, In v values' -> In v values)
    by (intros v; apply Permutation_in, Permutation_sym, Hp).
  exists mn, mx. repeat split; auto.
  - eapply Permutation_in; [exact Hp | exact Hmn].
  - eapply Permutation_in; [exact Hp | exact Hmx].
Qed.

Lemma in_metric_values (h : Heap) (players : list addr) (metric : Metric) (v : Q) :
  In v (metric_values h players metric) <->
  exists b, In b players /\ v = get_metric (h b) metric.
Proof.
  unfold metric_values. rewrite in_map_iff. split.
  - intros (b & E & Hb). exists b. auto.
  - intros (b & Hb & E). exists b. auto.
Qed.

(** The score written for a player of the array, for the three metrics of
    [readAndProcessPlayerData]. *)
Lemma levelA_score (h : Heap) (players : list addr) (a : addr) :
  In a players ->
  exists n1 n2 n3 : Q,
    normalized_spec (metric_values h players Key_historical_event_engagements)
                    (get_metric (h a) Key_historical_event_engagements) n1 /\
    normalized_spec (metric_values h players Key_historical_messages_sent)
                    (get_metric (h a) Key_historical_messages_sent) n2 /\
    normalized_spec (metric_values h players Key_days_active_last_30)
                    (get_metric (h a) Key_days_active_last_30) n3 /\
    (0 <= n1 <= 1) /\ (0 <= n2 <= 1) /\ (0 <= n3 <= 1) /\
    engagement_score (fst (normalizeAndScore h players metricsOfLevelA) a)
    == (n1 + n2 + n3) / 3.
Proof.
  intros Hin.
  rewrite (normalizeAndScore_score h players a Hin), normalizedScoreSum_levelA.
  destruct (metric_normalized h players a Key_historical_event_engagements Hin)
    as (S1 & B1).
  destruct (metric_normalized h players a Key_historical_messages_sent Hin)
    as (S2 & B2).
  destruct (metric_normalized h players a Key_days_active_last_30 Hin)
    as (S3 & B3).
  exists (normalizedFor h players (h a) Key_historical_event_engagements),
         (normalizedFor h players (h a) Key_historical_messages_sent),
         (normalizedFor h players (h a) Key_days_active_last_30).
  split; [exact S1|]. split; [exact S2|]. split; [exact S3|].
  split; [exact B1|]. split; [exact B2|]. split; [exact B3|].
  change (inject_Z 3) with 3. apply Qmult_comp; [ring | reflexivity].
Qed.

(** What the normalized value is for a player who is lowest, and for a
    player who is highest, on a metric. *)
Lemma normalized_spec_lowest (values : list Q) (value n : Q) :
  In value values -> (forall v, In v values -> value <= v) ->
  normalized_spec values value n -> n == 0.
Proof.
  intros Hin Hlow (mn & mx & Hmn & Hmx & Hn).
  assert (E : mn == value) by (apply (is_min_unique values); [|split]; assumption).
  destruct Hn as [[_ En]|[Hne En]]; [exact En|].
  rewrite En, E. unfold Qdiv. ring.
Qed.

Lemma normalized_spec_highest (values : list Q) (value n low : Q) :
  In value values -> (forall v, In v values -> v <= value) ->
  In low values -> low < value ->
  normalized_spec values value n -> n == 1.
Proof.
  intros Hin Hhigh Hlow Hlt (mn & mx & Hmn & Hmx & Hn).
  assert (E : mx == value) by (apply (is_max_unique values); [|split]; assumption).
  pose proof (proj2 Hmn _ Hlow) as Hmnlow.
  destruct Hn as [[Heq _]|[Hne En]]; [lra|].
  rewrite En, E. field. lra.
Qed.

(** X9.  A player who has the lowest value of every metric gets the score
    0; in particular a lone player, and every player when all players have
    the same metrics, get 0. *)
Theorem lowest_on_every_metric_scores_zero (h : Heap) (players : list addr)
        (a : addr) :
  In a players ->
  (forall metric b, In b players ->
                    get_metric (h a) metric <= get_metric (h b) metric) ->
  engagement_score (fst (normalizeAndScore h players metricsOfLevelA) a) == 0.
Proof.
  intros Hin Hlow.
  destruct (levelA_score h players a Hin)
    as (n1 & n2 & n3 & S1 & S2 & S3 & _ & _ & _ & E).
  assert (Z : forall metric n,
             normalized_spec (metric_values h players metric)
                             (get_metric (h a) metric) n -> n == 0).
  { intros metric n. apply normalized_spec_lowest.
    - apply in_metric_values. exists a. auto.
    - intros v Hv. apply in_metric_values in Hv.
      destruct Hv as (b & Hb & ->). apply Hlow, Hb. }
  rewrite E, (Z _ _ S1), (Z _ _ S2), (Z _ _ S3). reflexivity.
Qed.

Lemma lowest_on_every_metric_scores_zero_witness :
  In 0%nat [0; 1]%nat /\
  (forall metric b, In b [0; 1]%nat ->
                    get_metric (twoPlayers 0%nat) metric
                    <= get_metric (twoPlayers b) metric) /\
  engagement_score
    (fst (normalizeAndScore twoPlayers [0; 1]%nat metricsOfLevelA) 0%nat) == 0.
Proof.
  assert (H1 : In 0%nat [0; 1]%nat) by (left; reflexivity).
  assert (H2 : forall metric b, In b [0; 1]%nat ->
                                get_metric (twoPlayers 0%nat) metric
                                <= get_metric (twoPlayers b) metric).
  { intros [] b [<-|[<-|[]]]; unfold Qle; simpl; lia. }
  split; [exact H1|]. split; [exact H2|].
  exact (lowest_on_every_metric_scores_zero twoPlayers [0; 1]%nat 0%nat H1 H2).
Defined.

(** X10.  A player who has the highest value of every metric, none of the
    metrics being constant across the players, gets the score 1. *)
Theorem highest_on_every_metric_scores_one (h : Heap) (players : list addr)
        (a : addr) :
  In a players ->
  (forall metric b, In b players ->
                    get_metric (h b) metric <= get_metric (h a) metric) ->
  (forall metric, exists b, In b players /\
                            get_metric (h b) metric < get_metric (h a) metric) ->
  engagement_score (fst (normalizeAndScore h players metricsOfLevelA) a) == 1.
Proof.
  intros Hin Hhigh Hvar.
  destruct (levelA_score h players a Hin)
    as (n1 & n2 & n3 & S1 & S2 & S3 & _ & _ & _ & E).
  assert (O : forall metric n,
             normalized_spec (metric_values h players metric)
                             (get_metric (h a) metric) n -> n == 1).
  { intros metric n. destruct (Hvar metric) as (b & Hb & Hlt).
    apply (normalized_spec_highest _ _ _ (get_metric (h b) metric)).
    - apply in_metric_values. exists a. auto.
    - intros v Hv. apply in_metric_values in Hv.
      destruct Hv as (c & Hc & ->). apply Hhigh, Hc.
    - apply in_metric_values. exists b. auto.
    - exact Hlt. }
  rewrite E, (O _ _ S1), (O _ _ S2), (O _ _ S3). reflexivity.
Qed.

Lemma highest_on_every_metric_scores_one_witness :
  In 1%nat [0; 1]%nat /\
  (forall metric b, In b [0; 1]%nat ->
                    get_metric (twoPlayers b) metric
                    <= get_metric (twoPlayers 1%nat) metric) /\
  (forall metric, exists b, In b [0; 1]%nat /\
                            get_metric (twoPlayers b) metric
                            < get_metric (twoPlayers 1%nat) metric) /\
  engagement_score
    (fst (normalizeAndScore twoPlayers [0; 1]%nat metricsOfLevelA) 1%nat) == 1.
Proof.
  assert (H1 : In 1%nat [0; 1]%nat) by (right; left; reflexivity).
  assert (H2 : forall metric b, In b [0; 1]%nat ->
                                get_metric (twoPlayers b) metric
                                <= get_metric (twoPlayers 1%nat) metric).
  { intros [] b [<-|[<-|[]]]; unfold Qle; simpl; lia. }
  assert (H3 : forall metric, exists b, In b [0; 1]%nat /\
                                        get_metric (twoPlayers b) metric
                                        < get_metric (twoPlayers 1%nat) metric).
  { intros []; exists 0%nat; (split; [left; reflexivity | reflexivity]). }
  split; [exact H1|]. split; [exact H2|]. split; [exact H3|].
  exact (highest_on_every_metric_scores_one twoPlayers [0; 1]%nat 1%nat H1 H2 H3).
Defined.

Lemma computeMinMax_same_metrics (h h' : Heap) (players : list addr)
      (metrics : list Metric) :
  (forall p metric, get_metric (h' p) metric = get_metric (h p) metric) ->
  computeMinMax h' players metrics = computeMinMax h players metrics.
Proof.
  intros E. unfold computeMinMax. generalize (@nil (Metric * MinMax)).
  induction metrics as [|m ms IH]; intros acc; simpl; [reflexivity|].
  rewrite (map_ext _ (fun p => get_metric (h p) m)) by (intros p; apply E).
  apply IH.
Qed.

Lemma scored_same_metrics (h : Heap) (players : list addr)
      (metrics : list Metric) (p : addr) (metric : Metric) :
  get_metric (fst (normalizeAndScore h players metrics) p) metric
  = get_metric (h p) metric.
Proof.
  apply same_fields_get_metric. unfold normalizeAndScore. simpl fst.
  apply scoreAll_frame.
Qed.

(** X11.  Scoring again changes nothing: the Scorer reads the metrics only,
    which it leaves as they are, so a second call on the same array writes
    the scores that are already there. *)
Theorem scoring_twice_is_scoring_once (h : Heap) (players : list addr)
        (metrics : list Metric) (a : addr) :
  let h' := fst (normalizeAndScore h players metrics) in
  fst (normalizeAndScore h' players metrics) a = h' a.
Proof.
  intros h'.
  destruct (in_dec Nat.eq_dec a players) as [Hin|Hout].
  - unfold normalizeAndScore at 1. simpl fst.
    rewrite scoreAll_inside by exact Hin.
    rewrite (computeMinMax_same_metrics h h')
      by (intros p m; apply scored_same_metrics).
    rewrite (normalizedScoreSum_metrics _ _ (h' a) (h a))
      by (intros m; apply scored_same_metrics).
    unfold h', normalizeAndScore. simpl fst.
    rewrite scoreAll_inside by exact Hin. reflexivity.
  - unfold normalizeAndScore at 1. simpl fst.
    apply scoreAll_outside, Hout.
Qed.

(** X12.  The scores do not depend on the order of the players in the
    array: for a rearranged array every player gets the same score. *)
Theorem scores_ignore_player_order (h : Heap) (players players' : list addr)
        (a : addr) :
  Permutation players players' ->
  In a players ->
  engagement_score (fst (normalizeAndScore h players' metricsOfLevelA) a)
  == engagement_score (fst (normalizeAndScore h players metricsOfLevelA) a).
Proof.
  intros Hp Hin.
  assert (Hin' : In a players') by (eapply Permutation_in; eassumption).
  destruct (levelA_score h players a Hin)
    as (n1 & n2 & n3 & S1 & S2 & S3 & _ & _ & _ & E).
  destruct (levelA_score h players' a Hin')
    as (m1 & m2 & m3 & T1 & T2 & T3 & _ & _ & _ & E').
  assert (U : forall metric n m,
             normalized_spec (metric_values h players metric)
                             (get_metric (h a) metric) n ->
             normalized_spec (metric_values h players' metric)
                             (get_metric (h a) metric) m -> m == n).
  { intros metric n m Sn Sm.
    apply (normalized_spec_unique (metric_values h players' metric)
                                  (get_metric (h a) metric)); [exact Sm|].
    eapply normalized_spec_perm; [|exact Sn].
    unfold metric_values. apply Permutation_map, Hp. }
  rewrite E, E', (U _ _ _ S1 T1), (U _ _ _ S2 T2), (U _ _ _ S3 T3).
  reflexivity.
Qed.

Lemma scores_ignore_player_order_witness :
  Permutation [0; 1; 2]%nat [2; 0; 1]%nat /\
  In 1%nat [0; 1; 2]%nat /\
  engagement_score
    (fst (normalizeAndScore
            (fun a => nth a (map playerOfRecord sampleRecords) noPlayer)
            [2; 0; 1]%nat metricsOfLevelA) 1%nat)
  == engagement_score
       (fst (normalizeAndScore
               (fun a => nth a (map playerOfRecord sampleRecords) noPlayer)
               [0; 1; 2]%nat metricsOfLevelA) 1%nat).
Proof.
  assert (H1 : Permutation [0; 1; 2]%nat [2; 0; 1]%nat).
  { exact (Permutation_app_comm [0; 1]%nat [2]%nat). }
  assert (H2 : In 1%nat [0; 1; 2]%nat) by (right; left; reflexivity).
  split; [exact H1|]. split; [exact H2|].
  exact (scores_ignore_player_order _ [0; 1; 2]%nat [2; 0; 1]%nat 1%nat H1 H2).
Defined.

(** X14.  [readAndProcessPlayerData] returns one player per row, in the
    order of the rows: the player at position [i] has the id and the three
    metrics of row [i], and a score in [0, 1]. *)
Theorem players_carry_their_records (records : list CsvRecord) :
  exists h : Heap,
    readAndProcessPlayerData (Ok records) = Ok (h, seq 0 (length records)) /\
    forall (i : nat) (record : CsvRecord),
      nth_error records i = Some record ->
      player_id (h i) = record_player_id record /\
      historical_event_engagements (h i)
      = record_historical_event_engagements record /\
      historical_messages_sent (h i) = record_historical_messages_sent record /\
      days_active_last_30 (h i) = record_days_active_last_30 record /\
      0 <= engagement_score (h i) /\ engagement_score (h i) <= 1.
Proof.
  set (h0 := fun a => nth a (map playerOfRecord records) noPlayer).
  exists (fst (normalizeAndScore h0 (seq 0 (length records)) metricsOfLevelA)).
  split; [reflexivity|].
  intros i record Hi.
  assert (Hlt : (i < length records)%nat) by (apply nth_error_Some; congruence).
  assert (E0 : h0 i = playerOfRecord record).
  { unfold h0. apply nth_error_nth. rewrite nth_error_map, Hi. reflexivity. }
  pose proof (scoreAll_frame (computeMinMax h0 (seq 0 (length records))
                                            metricsOfLevelA)
                             metricsOfLevelA (seq 0 (length records)) h0 i) as F.
  assert (Hin : In i (seq 0 (length records))) by (apply in_seq; lia).
  destruct (levelA_score h0 _ i Hin)
    as (n1 & n2 & n3 & _ & _ & _ & B1 & B2 & B3 & E).
  unfold normalizeAndScore in *. simpl fst in *.
  rewrite E0 in F.
  match type of E with
  | engagement_score ?x == _ => set (scoredPlayer := x) in *
  end.
  clearbody scoredPlayer. destruct scoredPlayer as [pid m1 m2 m3 sc].
  unfold set_engagement_score, playerOfRecord in F. simpl in F.
  inversion F; subst. simpl in *.
  repeat split; try reflexivity; rewrite E.
  - apply Qle_shift_div_l; lra.
  - apply Qle_shift_div_r; lra.
Qed.

(** * Further properties of the standard deviation *)

Lemma Qsum_zero_iff (l : list Q) :
  Forall (fun x => 0 <= x) l ->
  (Qsum l == 0 <-> Forall (fun x => x == 0) l).
Proof.
  induction 1 as [|x l Hx Hl IH]; simpl.
  - split; [constructor | reflexivity].
  - pose proof (Qsum_nonneg l Hl) as Hs. split.
    + intros E. constructor; [lra|]. apply IH. lra.
    + intros Hz. inversion Hz as [|? ? Ex Ez]; subst.
      apply IH in Ez. lra.
Qed.

Lemma Qsum_const (l : list Q) (c : Q) :
  (forall x, In x l -> x == c) ->
  Qsum l == inject_Z (Z.of_nat (length l)) * c.
Proof.
  induction l as [|x l IH]; intros H.
  - simpl. ring.
  - pose proof (H x (or_introl eq_refl)) as Ex.
    simpl Qsum. rewrite IH by (intros y Hy; apply H; right; exact Hy).
    simpl length. rewrite Ex, Nat2Z.inj_succ. unfold Z.succ.
    rewrite inject_Z_plus. change (inject_Z 1) with 1. ring.
Qed.

Lemma population_variance_zero_iff (l : list Q) :
  l <> [] ->
  (population_variance l == 0 <-> forall x y, In x l -> In y l -> x == y).
Proof.
  intros Hne. unfold population_variance.
  set (n := inject_Z (Z.of_nat (length l))).
  set (mu := Qsum l / n).
  assert (Hn : 0 < n) by (apply inject_length_pos, Hne).
  assert (Hsq : Forall (fun x => 0 <= x) (map (fun x => (x - mu) * (x - mu)) l)).
  { apply Forall_map, Forall_forall. intros x _. generalize (x - mu). intros z. nra. }
  assert (Hdiv : Qsum (map (fun x => (x - mu) * (x - mu)) l) / n == 0
                 <-> Qsum (map (fun x => (x - mu) * (x - mu)) l) == 0).
  { split; intros E.
    - assert (E' : Qsum (map (fun x => (x - mu) * (x - mu)) l)
                   == Qsum (map (fun x => (x - mu) * (x - mu)) l) / n * n)
        by (field; lra).
      rewrite E', E. ring.
    - rewrite E. unfold Qdiv. ring. }
  rewrite Hdiv, (Qsum_zero_iff _ Hsq), Forall_map, Forall_forall.
  split.
  - intros H x y Hx Hy.
    pose proof (H x Hx) as Ex. pose proof (H y Hy) as Ey. simpl in Ex, Ey.
    assert (x - mu == 0) by nra. assert (y - mu == 0) by nra. lra.
  - intros H x Hx.
    assert (Emu : mu == x).
    { unfold mu. rewrite (Qsum_const l x) by (intros y Hy; apply H; assumption).
      fold n. field. lra. }
    rewrite Emu. ring.
Qed.

Lemma surd_value_zero_iff (s : surd) :
  0 <= radicand s -> (surd_value s = 0%R <-> radicand s == 0).
Proof.
  intros Hnn. unfold surd_value. split.
  - intros E. apply eqR_Qeq. rewrite RMicromega.Q2R_0.
    apply sqrt_eq_0; [|exact E].
    apply Qle_Rle in Hnn. rewrite RMicromega.Q2R_0 in Hnn. exact Hnn.
  - intros E. rewrite (Qeq_eqR _ _ E), RMicromega.Q2R_0. apply sqrt_0.
Qed.

(** * Further properties of the trial loop and of main *)

Section ReportFacts.
Variable seedrandom : string -> Rng.
Variable h : Heap.
Variable scored : list addr.
Variable numTeams : Z.
Variable seed : Z.

Local Abbreviation teamsOf := (trialTeams seedrandom h scored numTeams seed).
Local Abbreviation stdDevOf := (trialStdDev seedrandom h scored numTeams seed).
Local Abbreviation theReport := (report seedrandom h scored numTeams seed).

Lemma report_selects_index :
  exists k : nat,
    (k < 10)%nat /\
    chosenTrial theReport = (Z.of_nat k + 1)%Z /\
    finalAssignment theReport = Array_sort byId (teamsOf k) /\
    (forall j, (j < 10)%nat -> surd_le (stdDevOf k) (stdDevOf j)) /\
    (forall j, (j < k)%nat -> surd_lt (stdDevOf k) (stdDevOf j)).
Proof.
  destruct (trialLoop_selects seedrandom h scored numTeams seed)
    as (k & Hk & E & Hmin & Hfirst).
  exists k. unfold report. rewrite E. simpl. auto.
Qed.

Lemma report_assigned :
  (1 <= numTeams)%Z -> Permutation (assigned (finalAssignment theReport)) scored.
Proof.
  intros HN. destruct report_selects_index as (k & _ & _ & E & _).
  rewrite E.
  eapply perm_trans;
    [|apply (trialTeams_assigned seedrandom h scored numTeams seed k HN)].
  apply Permutation_flat_map, Array_sort_perm.
Qed.

Lemma report_ids :
  map id (finalAssignment theReport) = seq 1 (Z.to_nat numTeams).
Proof.
  destruct report_selects_index as (k & _ & _ & E & _).
  rewrite E. apply StronglySorted_perm_eq.
  - apply Array_sort_byId_sorted.
  - apply StronglySorted_seq.
  - eapply perm_trans; [apply Permutation_map, Array_sort_perm|].
    unfold trialTeams. rewrite <- (newTeams_ids (P := addr)).
    apply assignPlayers_ids.
Qed.

Lemma linesOf_length (teams : list (Team addr)) :
  length (linesOf h teams) = length (assigned teams).
Proof.
  unfold linesOf, assigned.
  induction teams as [|t l IH]; [reflexivity|].
  cbn [flat_map]. rewrite !length_app, length_map, IH. reflexivity.
Qed.
End ReportFacts.

(** X17.  The report always names a trial between 1 and 10, and the
    partition it holds is the partition of that trial with the teams put in
    id order: the loop never ends on its initial state. *)
Theorem report_names_the_trial_it_returns (seedrandom : string -> Rng)
        (h : Heap) (scored : list addr) (numTeams seed : Z) :
  let r := report seedrandom h scored numTeams seed in
  (1 <= chosenTrial r <= 10)%Z /\
  finalAssignment r
  = Array_sort byId (trialTeams seedrandom h scored numTeams seed
                                (Z.to_nat (chosenTrial r - 1))) /\
  lowestStdDev (trialLoop seedrandom h scored numTeams seed)
  = Finite (trialStdDev seedrandom h scored numTeams seed
                        (Z.to_nat (chosenTrial r - 1))).
Proof.
  intros r.
  destruct (trialLoop_selects seedrandom h scored numTeams seed)
    as (k & Hk & E & _).
  unfold r, report. rewrite E. simpl.
  replace (Z.to_nat (Z.of_nat k + 1 - 1)) with k by lia.
  repeat split; try reflexivity; lia.
Qed.

(** X18.  A trial whose team averages are all equal (dispersion 0) is
    never replaced by a later trial: the trial the report names is that
    trial or an earlier one. *)
Theorem balanced_trial_is_not_replaced (seedrandom : string -> Rng) (h : Heap)
        (scored : list addr) (numTeams seed : Z) (j : nat) :
  (j < 10)%nat ->
  surd_value (trialStdDev seedrandom h scored numTeams seed j) = 0%R ->
  (chosenTrial (report seedrandom h scored numTeams seed) <= Z.of_nat j + 1)%Z.
Proof.
  intros Hj Hz.
  apply surd_value_zero_iff in Hz; [|apply calculateStandardDeviation_nonneg].
  destruct (report_selects_index seedrandom h scored numTeams seed)
    as (k & Hk & Ec & _ & _ & Hfirst).
  rewrite Ec. destruct (le_lt_dec k j) as [H|H]; [lia|].
  specialize (Hfirst j H). unfold surd_lt in Hfirst.
  pose proof (calculateStandardDeviation_nonneg
                (map teamAvg (trialTeams seedrandom h scored numTeams seed k)))
    as Hnn.
  unfold trialStdDev in *. lra.
Qed.

Lemma balanced_trial_is_not_replaced_witness :
  (0 < 10)%nat /\
  surd_value (trialStdDev halfRng halfScores [0; 1]%nat 2 42 0) = 0%R /\
  (chosenTrial (report halfRng halfScores [0; 1]%nat 2 42) <= Z.of_nat 0 + 1)%Z.
Proof.
  assert (H1 : (0 < 10)%nat) by lia.
  assert (H2 : surd_value (trialStdDev halfRng halfScores [0; 1]%nat 2 42 0) = 0%R).
  { apply surd_value_zero_iff; [apply calculateStandardDeviation_nonneg|].
    reflexivity. }
  split; [exact H1|]. split; [exact H2|].
  exact (balanced_trial_is_not_replaced halfRng halfScores [0; 1]%nat 2 42 0 H1 H2).
Defined.

Lemma assignPlayers_single_team {P : Type} (score : P -> Q)
      (shuffledPlayers : list P) (t : Team P) :
  exists tot : Q,
    assignPlayers score [t] shuffledPlayers
    = [mkTeam (id t) (players t ++ shuffledPlayers) tot].
Proof.
  revert t. induction shuffledPlayers as [|p ps IH]; intros t.
  - exists (total_engagement_score t). simpl. rewrite app_nil_r.
    destruct t; reflexivity.
  - destruct (IH (addPlayer score t p)) as (tot & E).
    exists tot.
    change (assignPlayers score [t] (p :: ps))
      with (assignPlayers score [addPlayer score t p] ps).
    rewrite E. simpl. rewrite <- app_assoc. reflexivity.
Qed.

Lemma standard_deviation_of_one (x : Q) :
  radicand (calculateStandardDeviation [x]) == 0.
Proof.
  pose proof (calculateStandardDeviation_population [x]) as E.
  unfold surd_eq in E. simpl radicand in E. rewrite E by discriminate.
  apply population_variance_zero_iff; [discriminate|].
  intros a b [<-|[]] [<-|[]]. reflexivity.
Qed.

(** X19.  With one team every trial puts all the players on team 1, in the
    order of its shuffle, and has dispersion 0; the report keeps the first
    trial. *)
Theorem one_team_takes_everyone (seedrandom : string -> Rng) (h : Heap)
        (scored : list addr) (seed : Z) :
  (forall i : nat,
      exists tot : Q,
        trialTeams seedrandom h scored 1 seed i
        = [mkTeam 1 (fst (shuffle scored (seedrandom (trialSeed seed i)))) tot] /\
        surd_value (trialStdDev seedrandom h scored 1 seed i) = 0%R) /\
  chosenTrial (report seedrandom h scored 1 seed) = 1%Z /\
  map (fun t => (id t, players t)) (finalAssignment (report seedrandom h scored 1 seed))
  = [(1%nat, fst (shuffle scored (seedrandom (trialSeed seed 0))))].
Proof.
  assert (G : forall i : nat,
             exists tot : Q,
               trialTeams seedrandom h scored 1 seed i
               = [mkTeam 1 (fst (shuffle scored (seedrandom (trialSeed seed i)))) tot]).
  { intros i. unfold trialTeams.
    destruct (assignPlayers_single_team (scoreOf h)
                (fst (shuffle scored (seedrandom (trialSeed seed i))))
                (mkTeam 1 [] 0)) as (tot & E).
    exists tot. exact E. }
  assert (Z0 : forall i, radicand (trialStdDev seedrandom h scored 1 seed i) == 0).
  { intros i. unfold trialStdDev. destruct (G i) as (tot & ->).
    apply standard_deviation_of_one. }
  split; [|split].
  - intros i. destruct (G i) as (tot & E). exists tot. split; [exact E|].
    apply surd_value_zero_iff; [apply calculateStandardDeviation_nonneg | apply Z0].
  - destruct (report_selects_index seedrandom h scored 1 seed)
      as (k & _ & Ec & _ & _ & Hfirst).
    rewrite Ec. destruct k as [|k]; [reflexivity|].
    specialize (Hfirst 0%nat ltac:(lia)). unfold surd_lt in Hfirst.
    rewrite (Z0 0%nat), (Z0 (S k)) in Hfirst. lra.
  - destruct (report_selects_index seedrandom h scored 1 seed)
      as (k & _ & _ & Ef & _ & Hfirst).
    assert (k = 0%nat).
    { destruct k as [|k]; [reflexivity|].
      specialize (Hfirst 0%nat ltac:(lia)). unfold surd_lt in Hfirst.
      rewrite (Z0 0%nat), (Z0 (S k)) in Hfirst. lra. }
    subst k. rewrite Ef. destruct (G 0%nat) as (tot & ->). reflexivity.
Qed.

Lemma scored_player_id (records : list CsvRecord) (i : nat) (record : CsvRecord)
      (h : Heap) (scored : list addr) :
  readAndProcessPlayerData (Ok records) = Ok (h, scored) ->
  nth_error records i = Some record ->
  scored = seq 0 (length records) /\
  player_id (h i) = record_player_id record /\
  0 <= engagement_score (h i) /\ engagement_score (h i) <= 1.
Proof.
  intros E Hi. simpl in E. injection E as <- <-.
  split; [reflexivity|].
  set (h0 := fun a => nth a (map playerOfRecord records) noPlayer).
  assert (E0 : h0 i = playerOfRecord record).
  { unfold h0. apply nth_error_nth. rewrite nth_error_map, Hi. reflexivity. }
  assert (Hin : In i (seq 0 (length records))).
  { apply in_seq. assert (i < length records)%nat
      by (apply nth_error_Some; congruence). lia. }
  split.
  - pose proof (scoreAll_frame (computeMinMax h0 (seq 0 (length records))
                                              metricsOfLevelA)
                               metricsOfLevelA (seq 0 (length records)) h0 i) as F.
    apply (f_equal player_id) in F. simpl in F. rewrite E0 in F. exact F.
  - destruct (levelA_score h0 _ i Hin)
      as (n1 & n2 & n3 & _ & _ & _ & B1 & B2 & B3 & Es).
    rewrite Es. split; [apply Qle_shift_div_l | apply Qle_shift_div_r]; lra.
Qed.

(** X20.  In a run with at least one team every row of the table is
    printed once: there are as many assignment lines as rows, and the player
    of each row has a line [<player_id> -> new_team_<k>] with [k] between 1
    and the team count. *)
Theorem every_player_is_printed_with_a_team (seedrandom : string -> Rng)
        (numTeams seed : Z) (records : list CsvRecord) :
  (1 <= numTeams)%Z ->
  (forall s : string, in_unit_interval (seedrandom s)) ->
  exists r : Report,
    main seedrandom numTeams seed (Ok records) = Ok r /\
    length (assignmentLines r) = length records /\
    forall (i : nat) (record : CsvRecord),
      nth_error records i = Some record ->
      exists k : nat,
        (1 <= Z.of_nat k <= numTeams)%Z /\
        In (record_player_id record ++ " -> new_team_" ++ string_of_nat k)%string
           (assignmentLines r).
Proof.
  intros HN _.
  destruct (readAndProcessPlayerData_Ok records) as (h & E).
  set (scored := seq 0 (length records)) in *.
  exists (report seedrandom h scored numTeams seed).
  split; [apply main_Ok, E|].
  pose proof (report_assigned seedrandom h scored numTeams seed HN) as Hperm.
  pose proof (report_ids seedrandom h scored numTeams seed) as Hids.
  change (assignmentLines (report seedrandom h scored numTeams seed))
    with (linesOf h (finalAssignment (report seedrandom h scored numTeams seed))).
  split.
  - rewrite linesOf_length, (Permutation_length Hperm).
    apply length_seq.
  - intros i record Hi.
    destruct (scored_player_id records i record h scored E Hi) as (_ & Eid & _).
    assert (Hin : In i (assigned (finalAssignment
                                    (report seedrandom h scored numTeams seed)))).
    { eapply Permutation_in; [apply Permutation_sym, Hperm|].
      apply in_seq. assert (i < length records)%nat
        by (apply nth_error_Some; congruence). lia. }
    unfold assigned in Hin. apply in_flat_map in Hin.
    destruct Hin as (t & Ht & Hit).
    exists (id t). split.
    + assert (Hk : In (id t) (seq 1 (Z.to_nat numTeams)))
        by (rewrite <- Hids; apply in_map, Ht).
      apply in_seq in Hk. lia.
    + unfold linesOf. apply in_flat_map. exists t. split; [exact Ht|].
      rewrite <- Eid.
      apply (in_map (fun player =>
                       (player_id (h player) ++ " -> new_team_"
                        ++ string_of_nat (id t))%string)), Hit.
Qed.

Lemma every_player_is_printed_with_a_team_witness :
  (1 <= 2)%Z /\
  (forall s : string, in_unit_interval (halfRng s)) /\
  exists r : Report,
    main halfRng 2 42 (Ok sampleRecords) = Ok r /\
    length (assignmentLines r) = length sampleRecords /\
    forall (i : nat) (record : CsvRecord),
      nth_error sampleRecords i = Some record ->
      exists k : nat,
        (1 <= Z.of_nat k <= 2)%Z /\
        In (record_player_id record ++ " -> new_team_" ++ string_of_nat k)%string
           (assignmentLines r).
Proof.
  split; [lia|]. split; [intros s; exact half_in_unit_interval|].
  apply (every_player_is_printed_with_a_team halfRng 2 42 sampleRecords);
    [lia | intros s; exact half_in_unit_interval].
Defined.

(** * Every arrangement can be drawn *)

Section ShuffleReach.
Context {A : Type}.

Lemma array_set_app (pre tail : list A) (i : nat) (x : A) :
  (i < length pre)%nat ->
  array_set (pre ++ tail) i x = array_set pre i x ++ tail.
Proof.
  revert i. induction pre as [|y pre IH]; intros [|i] H; simpl in *;
    try lia; [reflexivity|]. f_equal. apply IH. lia.
Qed.

Lemma swap_app (pre tail : list A) (i j : nat) :
  (i < length pre)%nat -> (j < length pre)%nat ->
  swap (pre ++ tail) i j = swap pre i j ++ tail.
Proof.
  intros Hi Hj. unfold swap.
  rewrite !nth_error_app1 by assumption.
  destruct (nth_error pre j) as [r|] eqn:Ej;
    [|apply nth_error_None in Ej; lia].
  destruct (nth_error pre i) as [c|] eqn:Ei;
    [|apply nth_error_None in Ei; lia].
  rewrite array_set_app by exact Hi.
  rewrite array_set_app by (rewrite array_set_length; exact Hj).
  reflexivity.
Qed.

Lemma last_position_decomp (m : nat) (s : list A) (x : A) :
  length s = S m -> nth_error s m = Some x ->
  exists q, s = q ++ [x] /\ length q = m.
Proof.
  revert s. induction m as [|m IH]; intros s Hl Hn.
  - destruct s as [|y [|z s]]; try discriminate.
    simpl in Hn. injection Hn as ->. exists []. auto.
  - destruct s as [|y s]; [discriminate|].
    simpl in Hl, Hn. destruct (IH s) as (q & -> & Hq); [lia | exact Hn|].
    exists (y :: q). split; [reflexivity | simpl; lia].
Qed.

(** The loop entered with [currentIndex = n] can turn the first [n]
    elements into any arrangement of them. *)
Lemma shuffle_loop_reaches (n : nat) (pre pre' tail : list A) :
  length pre = n -> Permutation pre pre' ->
  exists rng : Rng,
    in_unit_interval rng /\
    fst (shuffle_loop n (pre ++ tail) rng) = pre' ++ tail.
Proof.
  revert pre pre' tail. induction n as [|n IH]; intros pre pre' tail Hl Hp.
  - apply length_zero_iff_nil in Hl. subst pre.
    apply Permutation_nil in Hp. subst pre'.
    exists (fun _ => 0). split; [|reflexivity].
    intros k. split; [apply Qle_refl | reflexivity].
  - assert (Hne : pre' <> []).
    { intros ->. apply Permutation_sym, Permutation_nil in Hp.
      subst pre. discriminate. }
    destruct (exists_last Hne) as (q' & x & ->).
    assert (Hx : In x pre).
    { eapply Permutation_in; [apply Permutation_sym, Hp|].
      apply in_or_app. right. left. reflexivity. }
    destruct (In_nth_error _ _ Hx) as (j & Ej).
    assert (Hj : (j < length pre)%nat) by (apply nth_error_Some; congruence).
    destruct (draw_for_index n j) as (u & H0 & H1 & Hpick); [lia|].
    assert (Hlast : nth_error (swap pre n j) n = Some x).
    { rewrite swap_nth_error by lia. rewrite Nat.eqb_refl. exact Ej. }
    destruct (last_position_decomp n (swap pre n j) x) as (q & Eq & Hq);
      [rewrite swap_length; exact Hl | exact Hlast |].
    assert (Hpq : Permutation q q').
    { apply (Permutation_app_inv_r [x]). rewrite <- Eq.
      eapply perm_trans; [apply swap_perm | exact Hp]. }
    destruct (IH q q' ([x] ++ tail) Hq Hpq) as (g & Hg & Eg).
    set (g0 := fun k => match k with O => u | S k' => g k' end).
    exists g0. split.
    + intros [|k]; [split; assumption | apply Hg].
    + change (fst (shuffle_loop (S n) (pre ++ tail) g0))
        with (fst (shuffle_loop n (swap (pre ++ tail) n (pickIndex g0 (S n)))
                                (fun k => g k))).
      rewrite (Hpick g0 eq_refl).
      rewrite swap_app by lia. rewrite Eq, <- !app_assoc. exact Eg.
Qed.
End ShuffleReach.

(** X22.  The shuffle can produce every arrangement of the array: for each
    permutation of the input there are draws in [0, 1) for which [shuffle]
    returns it. *)
Theorem shuffle_reaches_every_arrangement (A : Type) (array array' : list A) :
  Permutation array array' ->
  exists rng : Rng,
    in_unit_interval rng /\ fst (shuffle array rng) = array'.
Proof.
  intros Hp.
  destruct (shuffle_loop_reaches (length array) array array' [] eq_refl Hp)
    as (rng & Hr & E).
  exists rng. split; [exact Hr|].
  unfold shuffle. rewrite !app_nil_r in E. exact E.
Qed.

Lemma shuffle_reaches_every_arrangement_witness :
  Permutation [1; 2; 3]%nat [3; 1; 2]%nat /\
  exists rng : Rng,
    in_unit_interval rng /\ fst (shuffle [1; 2; 3]%nat rng) = [3; 1; 2]%nat.
Proof.
  assert (H : Permutation [1; 2; 3]%nat [3; 1; 2]%nat)
    by exact (Permutation_app_comm [1; 2]%nat [3]%nat).
  split; [exact H|].
  exact (shuffle_reaches_every_arrangement nat [1; 2; 3]%nat [3; 1; 2]%nat H).
Defined.

(** * Totals, averages and the summary *)

Lemma Qsum_unit_bounds (l : list Q) :
  Forall (fun x => 0 <= x /\ x <= 1) l ->
  0 <= Qsum l /\ Qsum l <= inject_Z (Z.of_nat (length l)).
Proof.
  induction 1 as [|x l [H0 H1] _ [IH0 IH1]].
  - simpl. split; apply Qle_refl.
  - simpl Qsum. simpl length. rewrite Nat2Z.inj_succ. unfold Z.succ.
    rewrite inject_Z_plus. change (inject_Z 1) with 1. split; lra.
Qed.

Lemma assignPlayers_total_sum {P : Type} (score : P -> Q) (numTeams : Z)
      (shuffledPlayers : list P) :
  Forall (fun t => total_engagement_score t == Qsum (map score (players t)))
         (assignPlayers score (newTeams numTeams) shuffledPlayers).
Proof.
  apply assignPlayers_Forall.
  - intros t p _ Ht. unfold addPlayer. simpl.
    rewrite map_app, Qsum_app, Ht. simpl. lra.
  - apply newTeams_Forall. intros i. simpl. reflexivity.
Qed.

Lemma flat_map_length_sum {A B : Type} (f : A -> list B) (l : list A) :
  length (flat_map f l) = list_sum (map (fun x => length (f x)) l).
Proof.
  induction l as [|x l IH]; simpl; [reflexivity|].
  rewrite length_app, IH. reflexivity.
Qed.

(** X24.  The team summary of a run with at least one team lists the teams
    1 to N in order; the sizes add up to the number of rows of the table;
    and every average lies in [0, 1]. *)
Theorem summary_is_consistent (seedrandom : string -> Rng)
        (numTeams seed : Z) (records : list CsvRecord) :
  (1 <= numTeams)%Z ->
  (forall s : string, in_unit_interval (seedrandom s)) ->
  exists r : Report,
    main seedrandom numTeams seed (Ok records) = Ok r /\
    map (fun e => fst (fst e)) (teamSummary r) = seq 1 (Z.to_nat numTeams) /\
    list_sum (map (fun e => snd (fst e)) (teamSummary r)) = length records /\
    Forall (fun e => 0 <= snd e /\ snd e <= 1) (teamSummary r).
Proof.
  intros HN _.
  destruct (readAndProcessPlayerData_Ok records) as (h & E).
  set (scored := seq 0 (length records)) in *.
  exists (report seedrandom h scored numTeams seed).
  split; [apply main_Ok, E|].
  pose proof (report_assigned seedrandom h scored numTeams seed HN) as Hperm.
  pose proof (report_ids seedrandom h scored numTeams seed) as Hids.
  destruct (report_selects_index seedrandom h scored numTeams seed)
    as (k & _ & _ & Ef & _).
  change (teamSummary (report seedrandom h scored numTeams seed))
    with (map (fun team : Team addr =>
                 (id team, length (players team), teamAvg team))
              (finalAssignment (report seedrandom h scored numTeams seed))).
  set (final := finalAssignment (report seedrandom h scored numTeams seed)) in *.
  clearbody final.
  rewrite !map_map. cbn [fst snd].
  split; [exact Hids|]. split.
  - rewrite <- (flat_map_length_sum players final).
    fold (assigned final). rewrite (Permutation_length Hperm). apply length_seq.
  - apply Forall_map, Forall_forall. intros t Ht. cbn [fst snd].
    assert (Hsum : total_engagement_score t
                   == Qsum (map (scoreOf h) (players t))).
    { assert (Hall : Forall (fun t => total_engagement_score t
                                      == Qsum (map (scoreOf h) (players t)))
                            final).
      { rewrite Ef.
        eapply Permutation_Forall; [apply Permutation_sym, Array_sort_perm|].
        apply assignPlayers_total_sum. }
      rewrite Forall_forall in Hall. apply Hall, Ht. }
    assert (Hb : Forall (fun x => 0 <= x /\ x <= 1)
                        (map (scoreOf h) (players t))).
    { apply Forall_map, Forall_forall. intros p Hp.
      assert (Hin : In p scored).
      { eapply Permutation_in; [exact Hperm|].
        unfold assigned. apply in_flat_map. exists t. auto. }
      apply in_seq in Hin.
      destruct (nth_error records p) as [record|] eqn:Hr;
        [|apply nth_error_None in Hr; lia].
      destruct (scored_player_id records p record h scored E Hr) as (_ & _ & B).
      exact B. }
    apply Qsum_unit_bounds in Hb. rewrite length_map in Hb.
    destruct Hb as [Hb0 Hb1].
    unfold teamAvg. rewrite Hsum.
    set (total := Qsum (map (scoreOf h) (players t))) in *.
    assert (HD : forall n : nat,
               total <= inject_Z (Z.of_nat n) ->
               0 < inject_Z (Z.of_nat (if (n =? 0)%nat then 1%nat else n)) /\
               total <= inject_Z (Z.of_nat (if (n =? 0)%nat then 1%nat else n))).
    { intros [|n] Hn; cbn [Nat.eqb].
      - change (inject_Z (Z.of_nat 0)) with 0 in Hn.
        change (inject_Z (Z.of_nat 1)) with 1. split; lra.
      - split; [|exact Hn].
        change 0 with (inject_Z 0). rewrite <- Zlt_Qlt. lia. }
    destruct (HD _ Hb1) as [Hpos Hle].
    split; [apply Qle_shift_div_l | apply Qle_shift_div_r]; lra.
Qed.

Lemma summary_is_consistent_witness :
  (1 <= 2)%Z /\
  (forall s : string, in_unit_interval (halfRng s)) /\
  exists r : Report,
    main halfRng 2 42 (Ok sampleRecords) = Ok r /\
    map (fun e => fst (fst e)) (teamSummary r) = seq 1 (Z.to_nat 2) /\
    list_sum (map (fun e => snd (fst e)) (teamSummary r)) = length sampleRecords /\
    Forall (fun e => 0 <= snd e /\ snd e <= 1) (teamSummary r).
Proof.
  split; [lia|]. split; [intros s; exact half_in_unit_interval|].
  apply (summary_is_consistent halfRng 2 42 sampleRecords);
    [lia | intros s; exact half_in_unit_interval].
Defined.

(** * The Scorer on any list of metrics *)

Lemma Metric_eqb_eq (a b : Metric) : Metric_eqb a b = true <-> a = b.
Proof. destruct a, b; simpl; split; intros H; try reflexivity; discriminate. Qed.

Lemma Metric_eq_dec (a b : Metric) : {a = b} + {a <> b}.
Proof. decide equality. Defined.

(** What [minMax] holds after the first [forEach]: for each metric of the
    list, the minimum and maximum of that metric across the players. *)
Lemma computeMinMax_get (h : Heap) (players : list addr) (metrics : list Metric)
      (metric : Metric) :
  In metric metrics ->
  minMax_get (computeMinMax h players metrics) metric
  = Some (mkMinMax (Math_min (metric_values h players metric))
                   (Math_max (metric_values h players metric))).
Proof.
  unfold computeMinMax. fold (metric_values h players).
  generalize (@nil (Metric * MinMax)).
  induction metrics as [|m ms IH]; intros acc Hin; [destruct Hin|].
  simpl fold_left.
  assert (Hout : forall ms' acc',
             ~ In metric ms' ->
             minMax_get
               (fold_left
                  (fun minMax metric0 =>
                     (metric0,
                      mkMinMax
                        (Math_min (map (fun p => get_metric (h p) metric0) players))
                        (Math_max (map (fun p => get_metric (h p) metric0) players)))
                     :: minMax) ms' acc') metric
             = minMax_get acc' metric).
  { induction ms' as [|m' ms' IH']; intros acc' Hn; [reflexivity|].
    simpl fold_left. rewrite IH' by (intros H; apply Hn; right; exact H).
    simpl. destruct (Metric_eqb m' metric) eqn:E; [|reflexivity].
    apply Metric_eqb_eq in E. exfalso. apply Hn. left. exact E. }
  destruct (in_dec Metric_eq_dec metric ms) as [Hms|Hms].
  - apply IH, Hms.
  - rewrite Hout by exact Hms.
    destruct Hin as [->|Hin]; [|contradiction].
    simpl. destruct (Metric_eqb metric metric) eqn:E; [reflexivity|].
    assert (Metric_eqb metric metric = true) by (apply Metric_eqb_eq; reflexivity).
    congruence.
Qed.

Lemma normalizedScoreSum_bounds (h : Heap) (players : list addr)
      (metrics part : list Metric) (a : addr) (acc : Q) :
  In a players -> (forall m, In m part -> In m metrics) ->
  let sum :=
    fold_left (fun sum metric =>
                 let value := get_metric (h a) metric in
                 match minMax_get (computeMinMax h players metrics) metric with
                 | Some minMaxMetric => sum + normalizedValue value minMaxMetric
                 | None => sum
                 end) part acc in
  acc <= sum /\ sum <= acc + inject_Z (Z.of_nat (length part)).
Proof.
  intros Hin. revert acc. induction part as [|m ms IH]; intros acc Hsub sum.
  - unfold sum. simpl. change (inject_Z 0) with 0. split; lra.
  - unfold sum. simpl fold_left.
    rewrite (computeMinMax_get h players metrics m)
      by (apply Hsub; left; reflexivity).
    destruct (metric_normalized h players a m Hin) as (_ & B0 & B1).
    simpl in B0, B1.
    destruct (IH (acc + normalizedValue (get_metric (h a) m)
                          (mkMinMax (Math_min (metric_values h players m))
                                    (Math_max (metric_values h players m)))))
      as [L U]; [intros m' Hm'; apply Hsub; right; exact Hm'|].
    simpl length. rewrite Nat2Z.inj_succ. unfold Z.succ.
    rewrite inject_Z_plus. change (inject_Z 1) with 1.
    cbv zeta in L, U |- *. split; lra.
Qed.

(** X25.  Whatever the list of metrics, provided it is not empty, the
    score written for a player of the array lies in [0, 1]; a metric listed
    twice counts twice. *)
Theorem score_in_unit_interval_for_any_metrics (h : Heap) (players : list addr)
        (metrics : list Metric) (a : addr) :
  metrics <> [] ->
  In a players ->
  0 <= engagement_score (fst (normalizeAndScore h players metrics) a) /\
  engagement_score (fst (normalizeAndScore h players metrics) a) <= 1.
Proof.
  intros Hne Hin. unfold normalizeAndScore. simpl fst.
  rewrite scoreAll_inside by exact Hin.
  cbn [engagement_score set_engagement_score].
  destruct (normalizedScoreSum_bounds h players metrics metrics a 0 Hin
                                      (fun m H => H)) as [L U].
  unfold normalizedScoreSum. cbv zeta in L, U |- *.
  pose proof (inject_length_pos metrics Hne) as Hpos.
  split; [apply Qle_shift_div_l | apply Qle_shift_div_r]; lra.
Qed.

Lemma score_in_unit_interval_for_any_metrics_witness :
  [Key_days_active_last_30; Key_days_active_last_30] <> [] /\
  In 0%nat [0; 1]%nat /\
  0 <= engagement_score
         (fst (normalizeAndScore twoPlayers [0; 1]%nat
                 [Key_days_active_last_30; Key_days_active_last_30]) 0%nat) /\
  engagement_score
    (fst (normalizeAndScore twoPlayers [0; 1]%nat
            [Key_days_active_last_30; Key_days_active_last_30]) 0%nat) <= 1.
Proof.
  assert (H1 : [Key_days_active_last_30; Key_days_active_last_30] <> [])
    by discriminate.
  assert (H2 : In 0%nat [0; 1]%nat) by (left; reflexivity).
  split; [exact H1|]. split; [exact H2|].
  exact (score_in_unit_interval_for_any_metrics twoPlayers [0; 1]%nat _ 0%nat H1 H2).
Defined.

(** * The seeds of the trials *)

Lemma string_append_cancel (prefix a b : string) :
  (prefix ++ a)%string = (prefix ++ b)%string -> a = b.
Proof.
  induction prefix as [|c prefix IH]; simpl; intros H; [exact H|].
  injection H as H. apply IH, H.
Qed.

Lemma string_of_nat_inj (i j : nat) : string_of_nat i = string_of_nat j -> i = j.
Proof.
  unfold string_of_nat. intros H.
  assert (Hnn : forall n, Nat.to_uint n <> Decimal.Nil).
  { intros n E. pose proof (DecimalNat.Unsigned.of_to n) as Hn.
    rewrite E in Hn. simpl in Hn. subst n. discriminate E. }
  apply (f_equal NilZero.uint_of_string) in H.
  rewrite !NilZero.usu in H by apply Hnn.
  injection H as H. apply DecimalNat.Unsigned.to_uint_inj, H.
Qed.

(** X26.  The trials of a run get different seed strings: [`${seed}-${i}`]
    determines [i]. *)
Theorem trial_seeds_are_distinct (seed : Z) (i j : nat) :
  trialSeed seed i = trialSeed seed j -> i = j.
Proof.
  unfold trialSeed. intros H.
  apply string_append_cancel in H. apply (string_append_cancel "-") in H.
  apply string_of_nat_inj, H.
Qed.

Lemma trial_seeds_are_distinct_witness :
  trialSeed 42 3 = trialSeed 42 3 /\ 3%nat = 3%nat.
Proof.
  split; [reflexivity|].
  exact (trial_seeds_are_distinct 42 3 3 eq_refl).
Defined.
